(** * Barcode-triggered image link: sender framing and receiver reassembly

    A shallow embedding of the two scripts of the repository:

    - [Serial_transmission.py], the capture loop of the camera board, which
      filters barcodes, remembers the ones already sent and writes
      [length | image | code] frames to the UART;
    - [raspi_new.py], class [OCRThread], whose [run] method polls the serial
      port, reassembles the frames and hands them to the OCR pipeline.

    Python values are modelled as follows.  A [bytes]/[bytearray] object is a
    [list byte]; a [str] is the list of its code points; a length or an image
    size is a natural number ([nat] for [len], [N] for the decoded 32-bit
    size); a reading of [time.time()] is a binary64 float; an exception is a
    value of [exn] carried in the left summand of a sum. *)

From Stdlib Require Import String.
From Stdlib Require Import List NArith Bool Arith Lia.
From Stdlib Require Import Strings.Byte.
From Stdlib Require Import Floats.PrimFloat.
Import ListNotations.

(** ** Python values *)

(** A Python [str]: the sequence of its Unicode code points. *)
Definition str := list N.

Inductive exn :=
| OverflowError                               (* int too big to convert *)
| SerialException (msg : string)              (* raised by the port *)
| UnicodeDecodeError (b : byte) (pos : nat)   (* 'ascii' codec can't decode byte b in position pos *)
| PipelineError (msg : string).               (* raised by PIL / cv2 *)

(** A computation that returns a value or raises. *)
Definition raising (A : Type) : Type := (exn + A)%type.

Definition ret {A} (a : A) : raising A := inr a.
Definition raise {A} (e : exn) : raising A := inl e.
Definition bind {A B} (m : raising A) (k : A -> raising B) : raising B :=
  match m with
  | inl e => inl e
  | inr a => k a
  end.

Notation "x <- m ;; k" := (bind m (fun x => k))
  (at level 61, m at next level, right associativity).
Notation "' p <- m ;; k" := (bind m (fun x => let 'p := x in k))
  (at level 61, p pattern, m at next level, right associativity).

(** [try: m except Exception as e: h e] *)
Definition try_except {A} (m : raising A) (h : exn -> A) : A :=
  match m with
  | inl e => h e
  | inr a => a
  end.

(** Splits a conjunction into its parts, and nothing else. *)
Ltac conjuncts := repeat match goal with |- _ /\ _ => split end.

Module Codec.

(** The byte whose value is [n mod 256]. *)
Definition byte_of_N (n : N) : byte :=
  match Byte.of_N (n mod 256) with
  | Some b => b
  | None => x00
  end.

(** [n.to_bytes(4, 'little')]: raises [OverflowError] from 2^32 on. *)
Definition little4 (n : N) : list byte :=
  [byte_of_N n; byte_of_N (n / 2 ^ 8); byte_of_N (n / 2 ^ 16); byte_of_N (n / 2 ^ 24)]%N.

Definition to_bytes4_little (n : N) : raising (list byte) :=
  if (n <? 2 ^ 32)%N then ret (little4 n) else raise OverflowError.

(** [int.from_bytes(bs, 'little')] *)
Fixpoint from_bytes_little (bs : list byte) : N :=
  match bs with
  | [] => 0
  | b :: rest => Byte.to_N b + 256 * from_bytes_little rest
  end%N.

(** The UTF-8 encoding of one code point: what the UART driver sends for each
    character of a [str] passed to [uart.write]. *)
Definition utf8_char (c : N) : list byte :=
  (if c <? 0x80 then [byte_of_N c]
   else if c <? 0x800 then
     [byte_of_N (0xC0 + c / 64); byte_of_N (0x80 + c mod 64)]
   else if c <? 0x10000 then
     [byte_of_N (0xE0 + c / 4096); byte_of_N (0x80 + (c / 64) mod 64);
      byte_of_N (0x80 + c mod 64)]
   else
     [byte_of_N (0xF0 + c / 262144); byte_of_N (0x80 + (c / 4096) mod 64);
      byte_of_N (0x80 + (c / 64) mod 64); byte_of_N (0x80 + c mod 64)])%N.

Definition encode_utf8 (s : str) : list byte := flat_map utf8_char s.

(** [bs.decode('ascii')], scanning from position [pos]. *)
Fixpoint decode_ascii_from (pos : nat) (bs : list byte) : raising str :=
  match bs with
  | [] => ret []
  | b :: rest =>
      if (Byte.to_N b <? 128)%N
      then s <- decode_ascii_from (S pos) rest ;; ret (Byte.to_N b :: s)
      else raise (UnicodeDecodeError b pos)
  end.

Definition decode_ascii (bs : list byte) : raising str := decode_ascii_from 0 bs.

(** Equality of two [str] values, and [code in pre_code]. *)
Fixpoint str_eqb (a b : str) : bool :=
  match a, b with
  | [], [] => true
  | x :: a', y :: b' => (x =? y)%N && str_eqb a' b'
  | _, _ => false
  end.

Definition str_in (code : str) (l : list str) : bool := existsb (str_eqb code) l.

End Codec.

(** ** The sender: [Serial_transmission.py] *)

Module Sender.
Import Codec.

(** What one snapshot yields for one detected barcode: [payload()] and the
    bytes of [img.scale(roi=(0, y()+h(), 640, 200)).compress(quality=35)],
    the strip of the picture below the barcode. *)
Record Barcode := { payload : str; crop : list byte }.

(** The module-level state of the script: the list [pre_code], everything
    written to the UART so far, one entry per [uart.write] call, and the LED. *)
Record State := { pre_code : list str; uart : list (list byte); led : bool }.

Definition init : State := {| pre_code := []; uart := []; led := false |}.

Definition led_off (st : State) : State :=
  {| pre_code := pre_code st; uart := uart st; led := false |}.

(** One pass of the [while(True)] body; [barcodes] is the result of
    [find_barcodes()] on the snapshot of this pass. *)
Definition capture (st : State) (barcodes : list Barcode) : raising State :=
  let st := led_off st in
  match barcodes with
  | [] => ret st
  | b :: _ =>
      let code := payload b in
      if str_in code (pre_code st) || negb (List.length code =? 13)
      then ret st
      else
        let img_compressed := crop b in
        size_bytes <- to_bytes4_little (N.of_nat (List.length img_compressed)) ;;
        ret {| pre_code := pre_code st ++ [code];
               uart := uart st ++ [size_bytes; img_compressed; encode_utf8 code];
               led := true |}
  end.

(** The loop over successive snapshots; an uncaught exception ends it. *)
Fixpoint loop (st : State) (snapshots : list (list Barcode)) : raising State :=
  match snapshots with
  | [] => ret st
  | barcodes :: later => st' <- capture st barcodes ;; loop st' later
  end.

(** The bytes put on the line, in order. *)
Definition line (st : State) : list byte := concat (uart st).

End Sender.

(** ** The receiver: [OCRThread.run] of [raspi_new.py] *)

Module Receiver.
Import Codec.

(** The dictionary returned by [perform_ocr], with the key ["waybill"]. *)
Record Result := { name : str; phone : str; text : str; waybill : str }.

(** [result["waybill"] = waybill] *)
Definition set_waybill (r : Result) (w : str) : Result :=
  {| name := name r; phone := phone r; text := text r; waybill := w |}.

(** The messages sent on [status_updated], one constructor per format
    string of the source. *)
Inductive Status :=
| PortConnected (port : string)                 (* 串口已连接: {port} *)
| ImageTimeout                                  (* 接收图像超时 *)
| ImageReceived (img_size : N)                  (* 接收到图像: {img_size} 字节 *)
| WaybillReceived (w : str)                     (* 接收到运单号: {waybill} *)
| WaybillError (e : exn)                        (* 运单号读取错误: {e} *)
| OcrDone                                       (* OCR识别完成 *)
| ImageError (e : exn)                          (* 图像处理错误: {e} *)
| ImageIncomplete (got : nat) (img_size : N)    (* 图像数据不完整: {got}/{img_size} 字节 *)
| PortClosed                                    (* 串口已关闭 *)
| PortError (e : exn).                          (* 串口连接错误: {e} *)

(** The two Qt signals of the thread. *)
Inductive Signal :=
| status_updated (s : Status)
| new_data (r : Result).

(** The string assigned to [waybill] by the handler of line 69, 读取失败. *)
Definition read_failed : str := [0x8BFB; 0x53D6; 0x5931; 0x8D25]%N.

(** What the port answers to one call: it hands over at most [k] bytes
    (for [in_waiting]: it reports [k] bytes), or the call raises. *)
Inductive reply :=
| Bytes (k : nat)
| Raises (e : exn).

(** Everything outside the thread.  The step of the loops in which a call is
    made indexes the answer it gets; each call site has its own answers, since
    a step makes at most one call from each site. *)
Record World := {
  serial_port : string;
  opens : option exn;               (* serial.Serial(...): [Some e] when it raises *)
  running : nat -> bool;            (* self.running, cleared by stop() *)
  in_waiting : nat -> reply;        (* ser.in_waiting, line 35 *)
  read_size : nat -> reply;         (* ser.read(4), line 37 *)
  read_chunk : nat -> reply;        (* ser.read(min(2048, remaining)), line 54 *)
  read_waybill : nat -> reply;      (* ser.read(13), line 66 *)
  clock : nat -> float;             (* time.time() *)
  pipeline : list byte -> raising Result
    (* Image.open, cvtColor and perform_ocr on the image bytes, lines 74-79 *)
}.

(** Where [run] stands between two steps. *)
Inductive Control :=
| Opening                                       (* before line 31 *)
| Polling                                       (* at [while self.running], line 34 *)
| Receiving (img_size : N) (img_data : list byte) (start_time : float)
                                                (* at the test of line 47 *)
| Returned.                                     (* [run] is over *)

(** [wire] holds the bytes written by the sender that no [read] has returned
    yet; [tick] counts the steps taken. *)
Record State := {
  pc : Control;
  tick : nat;
  wire : list byte;
  port_open : bool
}.

Definition start (stream : list byte) : State :=
  {| pc := Opening; tick := 0; wire := stream; port_open := false |}.

Definition goto (s : State) (c : Control) (w : list byte) : State :=
  {| pc := c; tick := S (tick s); wire := w; port_open := port_open s |}.

(** [ser.read(n)]: the bytes returned and the bytes left. *)
Definition ser_read (r : reply) (n : nat) (w : list byte)
  : raising (list byte * list byte) :=
  match r with
  | Raises e => raise e
  | Bytes k => ret (firstn (Nat.min n k) w, skipn (Nat.min n k) w)
  end.

(** [time.time() - start_time > 5] *)
Definition expired (start_time now : float) : bool :=
  PrimFloat.ltb 5%float (PrimFloat.sub now start_time).

(** Lines 72-85: the image goes through the pipeline; a record is emitted
    unless the pipeline raises. *)
Definition process (W : World) (img_data : list byte) (w : str) : list Signal :=
  try_except
    (result <- pipeline W img_data ;;
     ret [new_data (set_waybill result w); status_updated OcrDone])
    (fun e => [status_updated (ImageError e)]).

(** Lines 64-70: the waybill, the bytes left on the wire and the status.
    The handler of line 68 takes over whether [read] or [decode] raised; the
    bytes a successful [read] returned are consumed in both cases. *)
Definition waybill_of (W : World) (s : State) : str * list byte * Signal :=
  match ser_read (read_waybill W (tick s)) 13 (wire s) with
  | inl e => (read_failed, wire s, status_updated (WaybillError e))
  | inr (bs, rest) =>
      match decode_ascii bs with
      | inr w => (w, rest, status_updated (WaybillReceived w))
      | inl e => (read_failed, rest, status_updated (WaybillError e))
      end
  end.

(** Lines 60-87, reached when the inner loop is left. *)
Definition after_loop (W : World) (s : State) (img_size : N) (img_data : list byte)
  : State * list Signal :=
  if (N.of_nat (List.length img_data) =? img_size)%N then
    let '(w, rest, st) := waybill_of W s in
    (goto s Polling rest,
     status_updated (ImageReceived img_size) :: st :: process W img_data w)
  else
    (goto s Polling (wire s),
     [status_updated (ImageIncomplete (List.length img_data) img_size)]).

(** One pass of the inner loop, lines 47-58, or its exit. *)
Definition receive (W : World) (s : State)
           (img_size : N) (img_data : list byte) (start_time : float)
  : raising (State * list Signal) :=
  if (N.of_nat (List.length img_data) <? img_size)%N then
    if expired start_time (clock W (tick s)) then
      let '(s', out) := after_loop W s img_size img_data in
      ret (s', status_updated ImageTimeout :: out)
    else
      let remaining := (img_size - N.of_nat (List.length img_data))%N in
      '(chunk, rest) <- ser_read (read_chunk W (tick s))
                                 (N.to_nat (N.min 2048 remaining)) (wire s) ;;
      match chunk with
      | [] => ret (goto s (Receiving img_size img_data start_time) rest, [])
      | _ => ret (goto s (Receiving img_size (img_data ++ chunk) start_time) rest, [])
      end
  else ret (after_loop W s img_size img_data).

(** One pass of the outer loop up to the inner one, lines 35-45. *)
Definition poll (W : World) (s : State) : raising (State * list Signal) :=
  match in_waiting W (tick s) with
  | Raises e => raise e
  | Bytes 0 => ret (goto s Polling (wire s), [])
  | Bytes (S _) =>
      '(size_bytes, rest) <- ser_read (read_size W (tick s)) 4 (wire s) ;;
      if List.length size_bytes <? 4
      then ret (goto s Polling rest, [])
      else
        let img_size := from_bytes_little size_bytes in
        ret (goto s (Receiving img_size [] (clock W (tick s))) rest, [])
  end.

(** The handler of line 92: the method returns, the port is left as it is. *)
Definition link_failed (s : State) (e : exn) : State * list Signal :=
  (goto s Returned (wire s), [status_updated (PortError e)]).

(** One step of [run]: opening the port, one pass of the outer loop, or one
    pass of the inner loop. *)
Definition step (W : World) (s : State) : State * list Signal :=
  match pc s with
  | Returned => (s, [])
  | Opening =>
      match opens W with
      | Some e => link_failed s e
      | None =>
          ({| pc := Polling; tick := S (tick s); wire := wire s; port_open := true |},
           [status_updated (PortConnected (serial_port W))])
      end
  | Polling =>
      if running W (tick s)
      then try_except (poll W s) (link_failed s)
      else
        ({| pc := Returned; tick := S (tick s); wire := wire s; port_open := false |},
         [status_updated PortClosed])
  | Receiving img_size img_data start_time =>
      try_except (receive W s img_size img_data start_time) (link_failed s)
  end.

(** [fuel] steps, with the signals emitted on the way, oldest first. *)
Fixpoint run (W : World) (fuel : nat) (s : State) : State * list Signal :=
  match fuel with
  | 0 => (s, [])
  | S fuel' =>
      let '(s1, out1) := step W s in
      let '(s2, out2) := run W fuel' s1 in
      (s2, out1 ++ out2)
  end.

End Receiver.

(** ** Notions used to state the properties *)

Module Spec.
Import Codec Receiver.

(** The barcodes the qualification rule lets through, in order: the first
    barcode of a snapshot, when its code has 13 characters and is not among
    the codes [sent] so far. *)
Fixpoint transmitted (sent : list str) (snapshots : list (list Sender.Barcode))
  : list Sender.Barcode :=
  match snapshots with
  | [] => []
  | [] :: later => transmitted sent later
  | (b :: _) :: later =>
      if (List.length (Sender.payload b) =? 13) && negb (str_in (Sender.payload b) sent)
      then b :: transmitted (sent ++ [Sender.payload b]) later
      else transmitted sent later
  end.

(** The three [uart.write] calls of one frame. *)
Definition frame_writes (b : Sender.Barcode) : list (list byte) :=
  [little4 (N.of_nat (List.length (Sender.crop b))); Sender.crop b;
   encode_utf8 (Sender.payload b)].

(** Every first barcode of the snapshots has a crop whose length fits the
    four-byte field. *)
Definition crops_fit (snapshots : list (list Sender.Barcode)) : Prop :=
  forall barcodes b, In barcodes snapshots -> hd_error barcodes = Some b ->
                     (N.of_nat (List.length (Sender.crop b)) < 2 ^ 32)%N.

(** A frame on the wire: four length bytes, the payload, the identifier. *)
Definition is_frame (size_bytes img id : list byte) : Prop :=
  List.length size_bytes = 4 /\
  from_bytes_little size_bytes = N.of_nat (List.length img) /\
  List.length id = 13.

(** The call returns [n] bytes whenever the wire holds them. *)
Definition hands_over (r : reply) (n : nat) : Prop :=
  exists k, r = Bytes k /\ n <= k.

(** The bytes one read of the image can take when the port answers [r]: the
    read asks for 2048 bytes at most. *)
Definition offered (r : reply) : nat :=
  match r with
  | Bytes k => Nat.min 2048 k
  | Raises _ => 0
  end.

(** The bytes offered by the reads of the image made at the [n] steps that
    follow step [t0]. *)
Fixpoint offered_in (W : World) (t0 n : nat) : nat :=
  match n with
  | 0 => 0
  | S n' => offered_in W t0 n' + offered (read_chunk W (t0 + S n'))
  end.

(** A world that lets through the frame polled at step [t0], whose image has
    [len] bytes and takes [n] passes of the inner loop.  At step [t0] the
    thread is not stopped, bytes are reported and the read of the length is
    served in full.  At each of the [n] passes that follow, the image is
    still incomplete, the read of the image returns a chunk of any size,
    possibly empty, and the clock is within five seconds of its reading at
    [t0].  After these passes the chunks make up the image, and the read of
    the waybill made at the next step is served in full.  Nothing is asked
    of the world at any other step. *)
Record serves (W : World) (t0 len n : nat) : Prop := {
  serves_running : running W t0 = true;
  serves_waiting : exists k, in_waiting W t0 = Bytes (S k);
  serves_size : hands_over (read_size W t0) 4;
  serves_passes :
    forall i, i < n ->
              offered_in W t0 i < len /\
              (exists k, read_chunk W (t0 + S i) = Bytes k) /\
              expired (clock W t0) (clock W (t0 + S i)) = false;
  serves_complete : len <= offered_in W t0 n;
  serves_waybill : hands_over (read_waybill W (t0 + S n)) 13
}.

(** A world that lets through one frame after the other, the first polled
    at step [t0]; each frame is given by the length of its image and the
    number of passes it takes, and the next one is polled two steps after
    the last pass of the one before. *)
Fixpoint serves_all (W : World) (t0 : nat) (frames : list (nat * nat)) : Prop :=
  match frames with
  | [] => True
  | (len, n) :: later => serves W t0 len n /\ serves_all W (t0 + n + 2) later
  end.

(** The code points of a UTF-8 byte string, to say what the bytes written
    for a code are; [None] when the bytes are cut short or start with a
    continuation byte. *)
Fixpoint decode_utf8 (bs : list byte) : option str :=
  match bs with
  | [] => Some []
  | b0 :: r0 =>
      let v0 := Byte.to_N b0 in
      if (v0 <? 0x80)%N then option_map (cons v0) (decode_utf8 r0)
      else if (v0 <? 0xC0)%N then None
      else if (v0 <? 0xE0)%N then
        match r0 with
        | b1 :: r1 =>
            option_map (cons ((v0 - 0xC0) * 64 + (Byte.to_N b1 - 0x80))%N)
                       (decode_utf8 r1)
        | _ => None
        end
      else if (v0 <? 0xF0)%N then
        match r0 with
        | b1 :: b2 :: r2 =>
            option_map
              (cons ((v0 - 0xE0) * 4096 + (Byte.to_N b1 - 0x80) * 64
                     + (Byte.to_N b2 - 0x80))%N)
              (decode_utf8 r2)
        | _ => None
        end
      else
        match r0 with
        | b1 :: b2 :: b3 :: r3 =>
            option_map
              (cons ((v0 - 0xF0) * 262144 + (Byte.to_N b1 - 0x80) * 4096
                     + (Byte.to_N b2 - 0x80) * 64 + (Byte.to_N b3 - 0x80))%N)
              (decode_utf8 r3)
        | _ => None
        end
  end.

(** The signals of a frame received whole. *)
Definition frame_signals (W : World) (img id : list byte) : list Signal :=
  match decode_ascii id with
  | inr w =>
      status_updated (ImageReceived (N.of_nat (List.length img)))
        :: status_updated (WaybillReceived w)
        :: process W img w
  | inl e =>
      status_updated (ImageReceived (N.of_nat (List.length img)))
        :: status_updated (WaybillError e)
        :: process W img read_failed
  end.

(** The buffer of a frame in progress is no longer than its target. *)
Definition within_target (s : State) : Prop :=
  match pc s with
  | Receiving img_size img_data _ => (N.of_nat (List.length img_data) <= img_size)%N
  | _ => True
  end.

(** A signal that carries a record. *)
Definition is_record (g : Signal) : bool :=
  match g with
  | new_data _ => true
  | status_updated _ => false
  end.

(** What a pass of the inner loop, or its exit, can be. *)
Inductive receiving_case (W : World) (s : State)
          (img_size : N) (img_data : list byte) (start_time : float) : Prop :=
| case_expired :
    (N.of_nat (List.length img_data) < img_size)%N ->
    expired start_time (clock W (tick s)) = true ->
    step W s =
    (goto s Polling (wire s),
     [status_updated ImageTimeout;
      status_updated (ImageIncomplete (List.length img_data) img_size)]) ->
    receiving_case W s img_size img_data start_time
| case_chunk (k : nat) :
    (N.of_nat (List.length img_data) < img_size)%N ->
    expired start_time (clock W (tick s)) = false ->
    read_chunk W (tick s) = Bytes k ->
    step W s =
    (goto s
       (Receiving img_size
          (img_data ++
           firstn (Nat.min (N.to_nat (N.min 2048 (img_size - N.of_nat (List.length img_data)))) k)
                  (wire s))
          start_time)
       (skipn (Nat.min (N.to_nat (N.min 2048 (img_size - N.of_nat (List.length img_data)))) k)
              (wire s)),
     []) ->
    receiving_case W s img_size img_data start_time
| case_read_raises (e : exn) :
    (N.of_nat (List.length img_data) < img_size)%N ->
    expired start_time (clock W (tick s)) = false ->
    read_chunk W (tick s) = Raises e ->
    step W s = link_failed s e ->
    receiving_case W s img_size img_data start_time
| case_complete :
    N.of_nat (List.length img_data) = img_size ->
    step W s =
    (let '(w, rest, st) := waybill_of W s in
     (goto s Polling rest,
      status_updated (ImageReceived img_size) :: st :: process W img_data w)) ->
    receiving_case W s img_size img_data start_time
| case_overrun :
    (img_size < N.of_nat (List.length img_data))%N ->
    step W s =
    (goto s Polling (wire s),
     [status_updated (ImageIncomplete (List.length img_data) img_size)]) ->
    receiving_case W s img_size img_data start_time.

(** What a pass of the outer loop can be, up to the inner loop. *)
Inductive polling_case (W : World) (s : State) : Prop :=
| case_stop :
    running W (tick s) = false ->
    step W s =
    ({| pc := Returned; tick := S (tick s); wire := wire s; port_open := false |},
     [status_updated PortClosed]) ->
    polling_case W s
| case_waiting_raises (e : exn) :
    running W (tick s) = true ->
    in_waiting W (tick s) = Raises e ->
    step W s = link_failed s e ->
    polling_case W s
| case_idle :
    running W (tick s) = true ->
    in_waiting W (tick s) = Bytes 0 ->
    step W s = (goto s Polling (wire s), []) ->
    polling_case W s
| case_size_raises (k : nat) (e : exn) :
    running W (tick s) = true ->
    in_waiting W (tick s) = Bytes (S k) ->
    read_size W (tick s) = Raises e ->
    step W s = link_failed s e ->
    polling_case W s
| case_short (k j : nat) :
    running W (tick s) = true ->
    in_waiting W (tick s) = Bytes (S k) ->
    read_size W (tick s) = Bytes j ->
    List.length (firstn (Nat.min 4 j) (wire s)) < 4 ->
    step W s = (goto s Polling (skipn (Nat.min 4 j) (wire s)), []) ->
    polling_case W s
| case_size (k j : nat) :
    running W (tick s) = true ->
    in_waiting W (tick s) = Bytes (S k) ->
    read_size W (tick s) = Bytes j ->
    4 <= List.length (firstn (Nat.min 4 j) (wire s)) ->
    step W s =
    (goto s
       (Receiving (from_bytes_little (firstn (Nat.min 4 j) (wire s))) []
                  (clock W (tick s)))
       (skipn (Nat.min 4 j) (wire s)),
     []) ->
    polling_case W s.

End Spec.

(** ** Concrete data and worlds *)

Module Examples.
Import Codec Receiver.

(** The code 1234567890123 and its thirteen bytes. *)
Definition code13 : str := [49; 50; 51; 52; 53; 54; 55; 56; 57; 48; 49; 50; 51]%N.
Definition id13 : list byte := [x31; x32; x33; x34; x35; x36; x37; x38; x39; x30; x31; x32; x33].

(** Thirteen bytes that are not ASCII. *)
Definition idff : list byte := repeat xff 13.

Definition img3 : list byte := [x01; x02; x03].
Definition parcel : Sender.Barcode := {| Sender.payload := code13; Sender.crop := img3 |}.

(** A thousand zero bytes, the example of the specification. *)
Definition zeros : list byte := repeat x00 1000.
Definition parcel1000 : Sender.Barcode := {| Sender.payload := code13; Sender.crop := zeros |}.

(** A code of twelve characters. *)
Definition code12 : str := [49; 50; 51; 52; 53; 54; 55; 56; 57; 48; 49; 50]%N.
Definition short_parcel : Sender.Barcode := {| Sender.payload := code12; Sender.crop := img3 |}.

(** Another code of thirteen characters, 6901234567892. *)
Definition other13 : str := [54; 57; 48; 49; 50; 51; 52; 53; 54; 55; 56; 57; 50]%N.
Definition other_parcel : Sender.Barcode :=
  {| Sender.payload := other13; Sender.crop := [xff; xd8; xff; xd9] |}.

(** Five snapshots: a parcel, nothing, the same parcel again, a code of
    twelve characters, and two barcodes at once. *)
Definition belt : list (list Sender.Barcode) :=
  [[parcel]; []; [parcel]; [short_parcel]; [other_parcel; parcel]].

(** A pipeline that reads the image bytes back as the recognised text. *)
Definition echo (img : list byte) : raising Result :=
  ret {| name := []; phone := []; text := map Byte.to_N img; waybill := [] |}.

(** A pipeline that cannot open any image. *)
Definition broken (img : list byte) : raising Result :=
  raise (PipelineError "cannot identify image file").

(** A clock that advances by one second at every step. *)
Fixpoint seconds (t : nat) : float :=
  match t with
  | 0 => 0%float
  | S t' => (seconds t' + 1)%float
  end.

(** A port that opens and answers every read with at most [k] bytes, under a
    clock that stands still. *)
Definition port (k : nat) : World :=
  {| serial_port := "/dev/ttyAMA1";
     opens := None;
     running := fun _ => true;
     in_waiting := fun _ => Bytes 1;
     read_size := fun _ => Bytes k;
     read_chunk := fun _ => Bytes k;
     read_waybill := fun _ => Bytes k;
     clock := fun _ => 0%float;
     pipeline := echo |}.

(** Every read is served in full; one byte per read. *)
Definition whole : World := port 4096.
Definition bytewise : World := port 1.

(** The reads of the image return 2, 0, 500 and then up to 501 bytes, the
    other reads are served in full, and every step takes one second. *)
Definition ragged : World :=
  {| serial_port := "/dev/ttyAMA1";
     opens := None;
     running := fun _ => true;
     in_waiting := fun _ => Bytes 1;
     read_size := fun _ => Bytes 4;
     read_chunk := fun t => match t with 2 => Bytes 2 | 3 => Bytes 0 | 4 => Bytes 500 | _ => Bytes 501 end;
     read_waybill := fun _ => Bytes 13;
     clock := seconds;
     pipeline := echo |}.

(** Every read is served in full and every step takes one second. *)
Definition steady : World :=
  {| serial_port := "/dev/ttyAMA1";
     opens := None;
     running := fun _ => true;
     in_waiting := fun _ => Bytes 1;
     read_size := fun _ => Bytes 4096;
     read_chunk := fun _ => Bytes 4096;
     read_waybill := fun _ => Bytes 4096;
     clock := seconds;
     pipeline := echo |}.

(** The first read of the length returns two bytes only. *)
Definition short_first : World :=
  {| serial_port := "/dev/ttyAMA1";
     opens := None;
     running := fun _ => true;
     in_waiting := fun t => match t with 1 => Bytes 2 | _ => Bytes 1 end;
     read_size := fun t => match t with 1 => Bytes 2 | _ => Bytes 4096 end;
     read_chunk := fun _ => Bytes 4096;
     read_waybill := fun _ => Bytes 4096;
     clock := fun _ => 0%float;
     pipeline := echo |}.

(** The clock reads 100.0 at step 1 and 105.5 from step 3 on, while the port
    hands over one byte per read. *)
Definition slow : World :=
  {| serial_port := "/dev/ttyAMA1";
     opens := None;
     running := fun _ => true;
     in_waiting := fun _ => Bytes 1;
     read_size := fun _ => Bytes 4;
     read_chunk := fun _ => Bytes 1;
     read_waybill := fun _ => Bytes 13;
     clock := fun t => match t with 0 | 1 | 2 => 100%float | _ => 105.5%float end;
     pipeline := echo |}.

(** The port cannot be opened. *)
Definition absent : World :=
  {| serial_port := "/dev/ttyAMA1";
     opens := Some (SerialException "could not open port");
     running := fun _ => true;
     in_waiting := fun _ => Bytes 0;
     read_size := fun _ => Bytes 0;
     read_chunk := fun _ => Bytes 0;
     read_waybill := fun _ => Bytes 0;
     clock := fun _ => 0%float;
     pipeline := echo |}.

(** The device disappears: from step [t] on, every call to the port raises. *)
Definition unplugged (t : nat) : World :=
  let gone := fun u => if t <=? u then Raises (SerialException "device disconnected") else Bytes 4096 in
  {| serial_port := "/dev/ttyAMA1";
     opens := None;
     running := fun _ => true;
     in_waiting := fun u => if t <=? u then Raises (SerialException "device disconnected") else Bytes 1;
     read_size := gone;
     read_chunk := gone;
     read_waybill := gone;
     clock := fun _ => 0%float;
     pipeline := echo |}.

(** A stop request arrives before step [t]. *)
Definition stopped_at (t : nat) : World :=
  {| serial_port := "/dev/ttyAMA1";
     opens := None;
     running := fun u => u <? t;
     in_waiting := fun _ => Bytes 0;
     read_size := fun _ => Bytes 4096;
     read_chunk := fun _ => Bytes 4096;
     read_waybill := fun _ => Bytes 4096;
     clock := fun _ => 0%float;
     pipeline := echo |}.

(** Only the read of the waybill raises. *)
Definition waybill_fails : World :=
  {| serial_port := "/dev/ttyAMA1";
     opens := None;
     running := fun _ => true;
     in_waiting := fun _ => Bytes 1;
     read_size := fun _ => Bytes 4096;
     read_chunk := fun _ => Bytes 4096;
     read_waybill := fun _ => Raises (SerialException "read failed");
     clock := fun _ => 0%float;
     pipeline := echo |}.

(** Frames as byte strings. *)
Definition frame3 : list byte := [x03; x00; x00; x00] ++ img3 ++ id13.
Definition frame3ff : list byte := [x03; x00; x00; x00] ++ img3 ++ idff.

(** A frame in progress: two of three bytes received, the third and the
    identifier still on the wire. *)
Definition midway (t : nat) : State :=
  {| pc := Receiving 3 [x01; x02] 100%float; tick := t;
     wire := x03 :: id13; port_open := true |}.

(** A frame whose image is complete, the identifier on the wire. *)
Definition complete (id : list byte) : State :=
  {| pc := Receiving 3 img3 0%float; tick := 5; wire := id; port_open := true |}.

(** The thread at the top of its loop. *)
Definition polling (t : nat) (w : list byte) : State :=
  {| pc := Polling; tick := t; wire := w; port_open := true |}.

End Examples.

(** ** Text extraction: [OCRThread.perform_ocr] of [raspi_new.py] *)

Module Ocr.
Import Codec Receiver.

(** What the [except] of line 126 can catch: an exception of
    [easyocr.Reader] or [readtext], or the [UnboundLocalError] raised when
    line 121 reads [name] and line 116 has not assigned it. *)
Inductive failure :=
| ReaderFailed (e : exn)
| NameUnbound.

(** The parts of the Python runtime the window and the extraction rely on:
    the Unicode decimal digits that [\d] matches in a [str] pattern,
    [str.lower], [str.strip], and the text [str(e)] of an exception. *)
Record Python := {
  isdecimal : N -> bool;
  lower : str -> str;
  strip : str -> str;
  describe : failure -> str
}.

(** The strings of lines 118-131: 未找到电话, 未提供, OCR错误 and
    OCR错误 followed by a colon and a space. *)
Definition phone_not_found : str := [26410; 25214; 21040; 30005; 35805]%N.
Definition not_provided : str := [26410; 25552; 20379]%N.
Definition ocr_error : str := [79; 67; 82; 38169; 35823]%N.
Definition ocr_error_prefix : str := [79; 67; 82; 38169; 35823; 58; 32]%N.

(** [sep.join(parts)] *)
Fixpoint join (sep : str) (parts : list str) : str :=
  match parts with
  | [] => []
  | [p] => p
  | p :: rest => p ++ sep ++ join sep rest
  end.

(** [text[a:b]] for [a <= b] *)
Definition slice (text : str) (a b : nat) : str := firstn (b - a) (skipn a text).

(** [\d{n}] at the head of [l]. *)
Definition digits (P : Python) (n : nat) (l : str) : bool :=
  (List.length (firstn n l) =? n) && forallb (isdecimal P) (firstn n l).

(** [(\d{11})转(\d{4})] at the head of [l]: the length of the match. *)
Definition match_extension (P : Python) (l : str) : option nat :=
  if digits P 11 l
     && match nth_error l 11 with Some c => (c =? 0x8F6C)%N | None => false end
     && digits P 4 (skipn 12 l)
  then Some 16 else None.

(** [1[3-9]\d{9}] at the head of [l]. *)
Definition match_mobile (P : Python) (l : str) : option nat :=
  match l with
  | c1 :: c2 :: rest =>
      if (c1 =? 49)%N && (51 <=? c2)%N && (c2 <=? 57)%N && digits P 9 rest
      then Some 11 else None
  | _ => None
  end.

(** The alternation, first branch first. *)
Definition match_phone (P : Python) (l : str) : option nat :=
  match match_extension P l with
  | Some n => Some n
  | None => match_mobile P l
  end.

(** [phone_pattern.search]: the leftmost position with a match, as
    [(start(), end())]. *)
Fixpoint search_phone_from (P : Python) (pos : nat) (l : str) : option (nat * nat) :=
  match match_phone P l with
  | Some n => Some (pos, pos + n)
  | None =>
      match l with
      | [] => None
      | _ :: rest => search_phone_from P (S pos) rest
      end
  end.

Definition search_phone (P : Python) (text : str) : option (nat * nat) :=
  search_phone_from P 0 text.

(** [[一-龥]] and [first_chinese_pattern.search]. *)
Definition is_chinese (c : N) : bool := (0x4e00 <=? c)%N && (c <=? 0x9fa5)%N.

Definition search_chinese (l : str) : option N := find is_chinese l.

(** A phone number with an extension: sixteen characters, eleven digits,
    转, four digits. *)
Definition extension_shape (P : Python) (phone : str) : Prop :=
  List.length phone = 16 /\
  nth_error phone 11 = Some 0x8F6C%N /\
  forallb (isdecimal P) (firstn 11 phone) = true /\
  forallb (isdecimal P) (skipn 12 phone) = true.

(** A mobile number: eleven characters, 1, one of 3 to 9, nine digits. *)
Definition mobile_shape (P : Python) (phone : str) : Prop :=
  List.length phone = 11 /\
  (exists c, firstn 2 phone = [49%N; c] /\ (51 <= c <= 57)%N) /\
  forallb (isdecimal P) (skipn 2 phone) = true.

(** Where the name is looked for: after the phone number when there is one,
    in the whole text otherwise. *)
Definition name_region (P : Python) (text : str) : str :=
  match search_phone P text with
  | Some (_, phone_end) => skipn phone_end text
  | None => text
  end.

(** Lines 98-125; [read] is what lines 98-99 give on the image. *)
Definition extract (P : Python) (read : raising (list str)) : failure + Result :=
  match read with
  | inl e => inl (ReaderFailed e)
  | inr results =>
      let text := join [10%N] results in
      let phone_match := search_phone P text in
      let first_chinese_match :=
        match phone_match with
        | Some (_, phone_end) => search_chinese (skipn phone_end text)
        | None => search_chinese text
        end in
      let full_phone :=
        match phone_match with
        | Some (phone_start, phone_end) => slice text phone_start phone_end
        | None => phone_not_found
        end in
      match first_chinese_match with
      | Some c =>
          inr {| name := [c; 42%N]; phone := full_phone; text := text;
                 waybill := not_provided |}
      | None => inl NameUnbound
      end
  end.

(** The whole method, with the handler of lines 126-132. *)
Definition perform_ocr (P : Python) (read : raising (list str)) : Result :=
  match extract P read with
  | inr result => result
  | inl f =>
      {| name := ocr_error_prefix ++ describe P f; phone := ocr_error;
         text := []; waybill := not_provided |}
  end.

(** Lines 74-79 as a pipeline: the image is opened and converted
    ([open_image], which may raise), read by the OCR engine ([readtext]) and
    passed to [perform_ocr]. *)
Definition pipeline_of (P : Python) {A : Type}
           (open_image : list byte -> raising A)
           (readtext : A -> raising (list str)) : list byte -> raising Result :=
  fun img_data => image <- open_image img_data ;; ret (perform_ocr P (readtext image)).

End Ocr.

(** ** The window: class [ExpressTracker] of [raspi_new.py] *)

Module Window.
Import Codec Receiver.

(** A dictionary with string keys, as carried by the signal [new_data]. *)
Definition dict := list (str * str).

(** [d.get(key, default)] *)
Fixpoint get (d : dict) (key default : str) : str :=
  match d with
  | [] => default
  | (k, v) :: rest => if str_eqb k key then v else get rest key default
  end.

(** The keys "name", "phone", "text" and "waybill". *)
Definition key_name : str := [110; 97; 109; 101]%N.
Definition key_phone : str := [112; 104; 111; 110; 101]%N.
Definition key_text : str := [116; 101; 120; 116]%N.
Definition key_waybill : str := [119; 97; 121; 98; 105; 108; 108]%N.

(** The dictionary emitted at line 81. *)
Definition to_dict (r : Result) : dict :=
  [(key_name, name r); (key_phone, phone r); (key_text, text r);
   (key_waybill, waybill r)].

(** The defaults of lines 229-231: 未知姓名, 未知电话, 未知运单号. *)
Definition unknown_name : str := [26410; 30693; 22995; 21517]%N.
Definition unknown_phone : str := [26410; 30693; 30005; 35805]%N.
Definition unknown_waybill : str := [26410; 30693; 36816; 21333; 21495]%N.

(** An element of [self.data]: the dictionary built at line 242, which
    always has its three keys. *)
Record Entry := { entry_name : str; entry_phone : str; entry_waybill : str }.

(** A row of the table: the texts of its three cells. *)
Definition Row : Type := (str * str * str)%type.

Definition row_of (item : Entry) : Row :=
  (entry_name item, entry_phone item, entry_waybill item).

Definition row_eqb (a b : Row) : bool :=
  let '(n1, p1, w1) := a in
  let '(n2, p2, w2) := b in
  str_eqb n1 n2 && str_eqb p1 p2 && str_eqb w1 w2.

(** The text of the status label, one constructor per string of the class. *)
Inductive Label :=
| Waiting                                   (* 等待数据... *)
| Total (n : nat)                           (* 共 {n} 条记录 *)
| AlreadyThere                              (* 已存在相同记录 *)
| Added (name phone waybill : str)          (* 添加新记录: {name} - {phone} - {waybill} *)
| Found (n : nat)                           (* 找到 {n} 条匹配记录 *)
| NotFound                                  (* 未找到匹配记录 *)
| FromThread (s : Status).                  (* a message of the thread *)

(** What [express_data.json] holds: nothing after the truncation of line
    150, or what [json.dump] last wrote. *)
Inductive File :=
| Empty
| Dumped (items : list Entry).

Record State := {
  data : list Entry;
  table : list Row;
  status_label : Label;
  search_input : str;
  data_file : File
}.

(** Lines 213-224 *)
Definition load_data_to_table (g : State) (items : list Entry) : State :=
  {| data := data g; table := map row_of items;
     status_label := Total (List.length items);
     search_input := search_input g; data_file := data_file g |}.

(** [__init__] and [init_ui]: the file is truncated, the list is empty and
    the empty list is loaded into the table. *)
Definition init : State :=
  load_data_to_table
    {| data := []; table := []; status_label := Waiting; search_input := [];
       data_file := Empty |}
    [].

Definition set_label (g : State) (l : Label) : State :=
  {| data := data g; table := table g; status_label := l;
     search_input := search_input g; data_file := data_file g |}.

(** Lines 226-260 *)
Definition add_new_data (g : State) (result : dict) : State :=
  let name := get result key_name unknown_name in
  let phone := get result key_phone unknown_phone in
  let waybill := get result key_waybill unknown_waybill in
  if existsb (fun row => row_eqb row (name, phone, waybill)) (table g)
  then set_label g AlreadyThere
  else
    let new_entry :=
      {| entry_name := name; entry_phone := phone; entry_waybill := waybill |} in
    {| data := data g ++ [new_entry];
       table := table g ++ [(name, phone, waybill)];
       status_label := Added name phone waybill;
       search_input := search_input g;
       data_file := Dumped (data g ++ [new_entry]) |}.

(** Lines 262-265 *)
Definition update_status (g : State) (message : Status) : State :=
  set_label g (FromThread message).

(** [a in b] for two strings. *)
Fixpoint starts_with (a b : str) : bool :=
  match a, b with
  | [], _ => true
  | x :: a', y :: b' => (x =? y)%N && starts_with a' b'
  | _ :: _, [] => false
  end.

Fixpoint contains (a b : str) : bool :=
  starts_with a b ||
  match b with
  | [] => false
  | _ :: b' => contains a b'
  end.

(** The test of lines 276-278. *)
Definition matches (P : Ocr.Python) (search_text : str) (item : Entry) : bool :=
  contains search_text (Ocr.lower P (entry_name item))
  || contains search_text (Ocr.lower P (entry_phone item))
  || contains search_text (Ocr.lower P (entry_waybill item)).

(** Lines 267-285 *)
Definition search_data (P : Ocr.Python) (g : State) : State :=
  let search_text := Ocr.lower P (Ocr.strip P (search_input g)) in
  match search_text with
  | [] => load_data_to_table g (data g)
  | _ :: _ =>
      let results := filter (matches P search_text) (data g) in
      set_label (load_data_to_table g results)
                (match results with
                 | [] => NotFound
                 | _ :: _ => Found (List.length results)
                 end)
  end.

(** Lines 200-206, on what the file holds: an empty file does not parse,
    and [json.load] gives back the list that [json.dump] wrote. *)
Definition load_data (g : State) : list Entry :=
  match data_file g with
  | Empty => []
  | Dumped items => items
  end.

(** The entry stored for a record of the thread. *)
Definition entry_of (r : Result) : Entry :=
  {| entry_name := name r; entry_phone := phone r; entry_waybill := waybill r |}.

(** [a] occurs in [b]. *)
Definition occurs_in (a b : str) : Prop := exists pre post, b = pre ++ a ++ post.

(** What happens to the window: a signal of the thread, text typed in the
    search box, a click on the search button. *)
Inductive Event :=
| FromWorker (sig : Signal)
| Typed (input : str)
| SearchClicked.

Definition handle (P : Ocr.Python) (g : State) (ev : Event) : State :=
  match ev with
  | FromWorker (new_data r) => add_new_data g (to_dict r)
  | FromWorker (status_updated s) => update_status g s
  | Typed input =>
      {| data := data g; table := table g; status_label := status_label g;
         search_input := input; data_file := data_file g |}
  | SearchClicked => search_data P g
  end.

Definition handle_all (P : Ocr.Python) (g : State) (evs : list Event) : State :=
  fold_left (handle P) evs g.

(** The table shows the list, the list has no repetition, and the file
    reloads to the list. *)
Definition in_step (g : State) : Prop :=
  table g = map row_of (data g) /\ NoDup (data g) /\ load_data g = data g.

End Window.

(** ** Further notions and data *)

Module Cases.
Import Codec Receiver.

(** A runtime restricted to ASCII: the digits 0-9, the letters A-Z lowered,
    blanks stripped at both ends. *)
Definition ascii_lower (s : str) : str :=
  map (fun c => if (65 <=? c)%N && (c <=? 90)%N then (c + 32)%N else c) s.

Definition is_blank (c : N) : bool := (c =? 32)%N || ((9 <=? c)%N && (c <=? 13)%N).

Fixpoint lstrip (s : str) : str :=
  match s with
  | c :: rest => if is_blank c then lstrip rest else s
  | [] => []
  end.

Definition ascii_strip (s : str) : str := rev (lstrip (rev (lstrip s))).

Definition ascii_python : Ocr.Python :=
  {| Ocr.isdecimal := fun c => (48 <=? c)%N && (c <=? 57)%N;
     Ocr.lower := ascii_lower;
     Ocr.strip := ascii_strip;
     Ocr.describe := fun _ => [] |}.

(** The lines 张三 and 13812345678 in both orders, and a line without any
    Chinese character. *)
Definition zhang_san : str := [24352; 19977]%N.
Definition mobile : str := [49; 51; 56; 49; 50; 51; 52; 53; 54; 55; 56]%N.
Definition label_name_first : list str := [zhang_san; mobile].
Definition label_phone_first : list str := [mobile; zhang_san].
Definition label_phone_only : list str := [mobile].

(** A number with an extension: 02112345678转1234 and then 李. *)
Definition extension_line : str :=
  [48; 50; 49; 49; 50; 51; 52; 53; 54; 55; 56; 36716; 49; 50; 51; 52; 26446]%N.

(** Two entries of the list. *)
Definition zhang : Window.Entry :=
  {| Window.entry_name := [24352; 42]%N; Window.entry_phone := mobile;
     Window.entry_waybill := Examples.code13 |}.
Definition li : Window.Entry :=
  {| Window.entry_name := [26446; 42]%N; Window.entry_phone := Ocr.phone_not_found;
     Window.entry_waybill := Examples.other13 |}.

(** The window showing both entries. *)
Definition two_rows : Window.State :=
  {| Window.data := [zhang; li];
     Window.table := [Window.row_of zhang; Window.row_of li];
     Window.status_label := Window.Total 2;
     Window.search_input := [];
     Window.data_file := Window.Dumped [zhang; li] |}.

(** A code of thirteen characters the last of which is é. *)
Definition accent_code : str := [49; 50; 51; 52; 53; 54; 55; 56; 57; 48; 49; 50; 233]%N.
Definition accent_parcel : Sender.Barcode :=
  {| Sender.payload := accent_code; Sender.crop := Examples.img3 |}.

(** What [readtext] gives when the OCR engine cannot load its model. *)
Definition no_model : raising (list str) := raise (PipelineError "model not found").

(** A port that serves every read, behind which the image opens and the OCR
    engine raises. *)
Definition engine_down : World :=
  {| serial_port := "/dev/ttyAMA1";
     opens := None;
     running := fun _ => true;
     in_waiting := fun _ => Bytes 1;
     read_size := fun _ => Bytes 4096;
     read_chunk := fun _ => Bytes 4096;
     read_waybill := fun _ => Bytes 4096;
     clock := Examples.seconds;
     pipeline := Ocr.pipeline_of ascii_python (fun img => ret img) (fun _ => no_model) |}.

(** The record of the first entry, and the window with 李 typed in the
    search box. *)
Definition zhang_record : Result :=
  {| name := [24352; 42]%N; phone := mobile; text := []; waybill := Examples.code13 |}.
Definition looking_for_li : Window.State :=
  Window.handle ascii_python two_rows (Window.Typed [26446%N]).

End Cases.

(** ** Bytes, lengths and codes *)

Section CodecFacts.
Import Codec.
Local Open Scope N_scope.

Lemma to_N_byte_of_N (n : N) : Byte.to_N (byte_of_N n) = n mod 256.
Proof.
  unfold byte_of_N.
  destruct (Byte.of_N (n mod 256)) as [b|] eqn:E.
  - now apply Byte.to_of_N.
  - apply Byte.of_N_None_iff in E.
    assert (n mod 256 < 256) by (apply N.mod_lt; discriminate).
    lia.
Qed.

Lemma to_N_byte_of_N_small (n : N) : n < 256 -> Byte.to_N (byte_of_N n) = n.
Proof.
  intros H. rewrite to_N_byte_of_N. now apply N.mod_small.
Qed.

Lemma length_little4 (n : N) : List.length (little4 n) = 4%nat.
Proof. reflexivity. Qed.

Lemma from_bytes_little4 (n : N) : n < 2 ^ 32 -> from_bytes_little (little4 n) = n.
Proof.
  intros Hn. unfold little4, from_bytes_little.
  rewrite !to_N_byte_of_N.
  change (2 ^ 8) with 256. change (2 ^ 16) with (256 * 256).
  change (2 ^ 24) with (256 * 256 * 256).
  rewrite <- !N.Div0.div_div.
  set (q1 := n / 256). set (q2 := q1 / 256). set (q3 := q2 / 256).
  pose proof (N.div_mod n 256 ltac:(discriminate)) as E0.
  pose proof (N.div_mod q1 256 ltac:(discriminate)) as E1.
  pose proof (N.div_mod q2 256 ltac:(discriminate)) as E2.
  fold q1 in E0. fold q2 in E1. fold q3 in E2.
  assert (H3 : q3 < 256).
  { unfold q3, q2, q1. rewrite !N.Div0.div_div.
    apply N.Div0.div_lt_upper_bound. exact Hn. }
  rewrite (N.mod_small q3 256 H3).
  lia.
Qed.

Lemma to_bytes4_little_fits (n : N) :
  n < 2 ^ 32 -> to_bytes4_little n = ret (little4 n).
Proof.
  intros H. unfold to_bytes4_little.
  apply N.ltb_lt in H. now rewrite H.
Qed.

Lemma decode_ascii_from_ok (bs : list byte) :
  Forall (fun b => Byte.to_N b < 128) bs ->
  forall pos, decode_ascii_from pos bs = ret (map Byte.to_N bs).
Proof.
  induction 1 as [|b bs Hb _ IH]; intros pos; simpl.
  - reflexivity.
  - apply N.ltb_lt in Hb. rewrite Hb, IH. reflexivity.
Qed.

Lemma encode_utf8_ascii (s : str) :
  Forall (fun c => c < 128) s -> encode_utf8 s = map byte_of_N s.
Proof.
  unfold encode_utf8.
  induction 1 as [|c s Hc _ IH]; simpl.
  - reflexivity.
  - rewrite IH. unfold utf8_char.
    apply N.ltb_lt in Hc. change 0x80 with 128. now rewrite Hc.
Qed.

Lemma decode_encode_ascii (s : str) :
  Forall (fun c => c < 128) s -> decode_ascii (encode_utf8 s) = ret s.
Proof.
  intros H. rewrite (encode_utf8_ascii s H).
  unfold decode_ascii. rewrite decode_ascii_from_ok.
  - f_equal. rewrite map_map.
    rewrite <- (map_id s) at 2. apply map_ext_in.
    intros c Hc. rewrite Forall_forall in H.
    apply to_N_byte_of_N_small. specialize (H c Hc). lia.
  - rewrite Forall_forall in *. intros b Hb.
    apply in_map_iff in Hb. destruct Hb as (c & <- & Hc).
    specialize (H c Hc). rewrite to_N_byte_of_N_small; lia.
Qed.

Lemma length_encode_utf8_ascii (s : str) :
  Forall (fun c => c < 128) s -> List.length (encode_utf8 s) = List.length s.
Proof.
  intros H. rewrite (encode_utf8_ascii s H). apply length_map.
Qed.

Lemma str_eqb_eq (a b : str) : str_eqb a b = true <-> a = b.
Proof.
  revert b. induction a as [|x a IH]; intros [|y b]; simpl; split;
    try congruence; try discriminate.
  - intros H. apply andb_true_iff in H. destruct H as [Hx Ha].
    apply N.eqb_eq in Hx. apply IH in Ha. congruence.
  - intros H. injection H as -> ->.
    rewrite N.eqb_refl. apply IH. reflexivity.
Qed.

Lemma str_in_In (code : str) (l : list str) : str_in code l = true <-> In code l.
Proof.
  unfold str_in. rewrite existsb_exists. split.
  - intros (x & Hx & E). apply str_eqb_eq in E. now subst.
  - intros H. exists code. split; [exact H | now apply str_eqb_eq].
Qed.

Lemma str_in_app (code : str) (l1 l2 : list str) :
  str_in code (l1 ++ l2) = str_in code l1 || str_in code l2.
Proof. unfold str_in. apply existsb_app. Qed.

End CodecFacts.

(** ** The bytes of a string *)

Section Utf8Facts.
Import Codec Spec.
Local Open Scope N_scope.

Lemma ltb_false (a b : N) : b <= a -> (a <? b) = false.
Proof. intros H. now apply N.ltb_ge. Qed.

Lemma ascii_bytes (s : str) :
  Forall (fun c => c < 128) s -> map Byte.to_N (map byte_of_N s) = s.
Proof.
  induction 1 as [|c s Hc _ IH]; cbn [map].
  - reflexivity.
  - rewrite IH, to_N_byte_of_N_small by lia. reflexivity.
Qed.

(** The bytes written for one character are read back as that character. *)
Lemma decode_utf8_char (c : N) (rest : list byte) :
  c < 0x110000 ->
  decode_utf8 (utf8_char c ++ rest) = option_map (cons c) (decode_utf8 rest).
Proof.
  intros Hc. unfold utf8_char.
  pose proof (N.div_mod c 64 ltac:(discriminate)) as E0.
  pose proof (N.mod_lt c 64 ltac:(discriminate)) as L0.
  pose proof (N.div_mod (c / 64) 64 ltac:(discriminate)) as E1.
  pose proof (N.mod_lt (c / 64) 64 ltac:(discriminate)) as L1.
  pose proof (N.div_mod (c / 64 / 64) 64 ltac:(discriminate)) as E2.
  pose proof (N.mod_lt (c / 64 / 64) 64 ltac:(discriminate)) as L2.
  change 4096 with (64 * 64). change 262144 with (64 * 64 * 64).
  rewrite <- !N.Div0.div_div.
  set (q1 := c / 64) in *. set (q2 := q1 / 64) in *. set (q3 := q2 / 64) in *.
  set (r0 := c mod 64) in *. set (r1 := q1 mod 64) in *. set (r2 := q2 mod 64) in *.
  destruct (c <? 0x80) eqn:T1; [|destruct (c <? 0x800) eqn:T2; [|destruct (c <? 0x10000) eqn:T3]];
    repeat match goal with
           | H : (_ <? _) = true |- _ => apply N.ltb_lt in H
           | H : (_ <? _) = false |- _ => apply N.ltb_ge in H
           end;
    cbn [app decode_utf8]; cbv zeta;
    rewrite ?to_N_byte_of_N_small by lia.
  - replace (c <? 0x80) with true by (symmetry; apply N.ltb_lt; lia). reflexivity.
  - rewrite (ltb_false (192 + q1) 0x80) by lia.
    rewrite (ltb_false (192 + q1) 0xC0) by lia.
    replace (192 + q1 <? 0xE0) with true by (symmetry; apply N.ltb_lt; lia).
    f_equal. f_equal. lia.
  - rewrite (ltb_false (224 + q2) 0x80) by lia.
    rewrite (ltb_false (224 + q2) 0xC0) by lia.
    rewrite (ltb_false (224 + q2) 0xE0) by lia.
    replace (224 + q2 <? 0xF0) with true by (symmetry; apply N.ltb_lt; lia).
    f_equal. f_equal. lia.
  - rewrite (ltb_false (240 + q3) 0x80) by lia.
    rewrite (ltb_false (240 + q3) 0xC0) by lia.
    rewrite (ltb_false (240 + q3) 0xE0) by lia.
    rewrite (ltb_false (240 + q3) 0xF0) by lia.
    f_equal. f_equal. lia.
Qed.

Lemma decode_encode_utf8 (s : str) :
  Forall (fun c => c < 0x110000) s -> decode_utf8 (encode_utf8 s) = Some s.
Proof.
  unfold encode_utf8.
  induction 1 as [|c s Hc _ IH]; cbn [flat_map].
  - reflexivity.
  - rewrite (decode_utf8_char c _ Hc), IH. reflexivity.
Qed.

End Utf8Facts.

(** ** The sender *)

Section SenderFacts.
Import Codec Sender Spec.

Lemma capture_accepts (st : State) (b : Barcode) (others : list Barcode) :
  str_in (payload b) (pre_code st) = false ->
  List.length (payload b) = 13 ->
  (N.of_nat (List.length (crop b)) < 2 ^ 32)%N ->
  capture st (b :: others) =
  ret {| pre_code := pre_code st ++ [payload b];
         uart := uart st ++ frame_writes b;
         led := true |}.
Proof.
  intros Hnew Hlen Hfit. unfold capture. simpl.
  rewrite Hnew, Hlen. simpl.
  rewrite (to_bytes4_little_fits _ Hfit). reflexivity.
Qed.

Lemma capture_rejects (st : State) (b : Barcode) (others : list Barcode) :
  (List.length (payload b) =? 13) && negb (str_in (payload b) (pre_code st)) = false ->
  capture st (b :: others) = ret (led_off st).
Proof.
  intros H. unfold capture. simpl.
  destruct (str_in (payload b) (pre_code st)); simpl in *.
  - reflexivity.
  - rewrite andb_true_r in H. rewrite H. reflexivity.
Qed.

Lemma crops_fit_tail {barcodes : list Barcode} {later : list (list Barcode)} :
  crops_fit (barcodes :: later) -> crops_fit later.
Proof.
  intros H bs b Hin Hhd. apply (H bs b); [now right | exact Hhd].
Qed.

(** The loop sends the frames of the transmitted barcodes and nothing else. *)
Lemma loop_transmitted {snapshots : list (list Barcode)} :
  crops_fit snapshots ->
  forall st, exists st',
    loop st snapshots = ret st' /\
    pre_code st' = pre_code st ++ map payload (transmitted (pre_code st) snapshots) /\
    uart st' = uart st ++ flat_map frame_writes (transmitted (pre_code st) snapshots).
Proof.
  induction snapshots as [|barcodes later IH]; intros Hfit st.
  - exists st. simpl. now rewrite !app_nil_r.
  - specialize (IH (crops_fit_tail Hfit)).
    destruct barcodes as [|b others]; cbn [loop transmitted].
    + destruct (IH (led_off st)) as (st' & E & Hp & Hu).
      exists st'. unfold capture. simpl. auto.
    + destruct ((List.length (payload b) =? 13)
                && negb (str_in (payload b) (pre_code st))) eqn:Q.
      * apply andb_true_iff in Q. destruct Q as [Hlen Hnew].
        apply Nat.eqb_eq in Hlen. apply negb_true_iff in Hnew.
        assert (Hb : (N.of_nat (List.length (crop b)) < 2 ^ 32)%N)
          by (apply (Hfit (b :: others) b); [now left | reflexivity]).
        rewrite (capture_accepts st b others Hnew Hlen Hb). simpl.
        destruct (IH {| pre_code := pre_code st ++ [payload b];
                        uart := uart st ++ frame_writes b;
                        led := true |}) as (st' & E & Hp & Hu).
        exists st'. simpl in *. rewrite E, Hp, Hu.
        rewrite <- !app_assoc. auto.
      * rewrite (capture_rejects st b others Q). simpl.
        destruct (IH (led_off st)) as (st' & E & Hp & Hu).
        exists st'. auto.
Qed.

Lemma transmitted_snoc (l : list (list Barcode)) :
  forall sent b others,
    transmitted sent (l ++ [b :: others]) =
    transmitted sent l ++
      (if (List.length (payload b) =? 13)
          && negb (str_in (payload b) (sent ++ map payload (transmitted sent l)))
       then [b] else []).
Proof.
  induction l as [|barcodes l IH]; intros sent b others; simpl.
  - rewrite app_nil_r.
    destruct ((List.length (payload b) =? 13) && negb (str_in (payload b) sent));
      reflexivity.
  - destruct barcodes as [|b' others']; [apply IH|].
    destruct ((List.length (payload b') =? 13) && negb (str_in (payload b') sent)).
    + simpl. rewrite IH. rewrite <- app_assoc. reflexivity.
    + apply IH.
Qed.

Lemma transmitted_NoDup (l : list (list Barcode)) :
  forall sent, NoDup sent -> NoDup (sent ++ map payload (transmitted sent l)).
Proof.
  induction l as [|barcodes l IH]; intros sent Hs; simpl.
  - now rewrite app_nil_r.
  - destruct barcodes as [|b others]; [now apply IH|].
    destruct ((List.length (payload b) =? 13) && negb (str_in (payload b) sent)) eqn:Q.
    + apply andb_true_iff in Q. destruct Q as [_ Hnew].
      apply negb_true_iff in Hnew.
      simpl. change (payload b :: map payload (transmitted (sent ++ [payload b]) l))
        with ([payload b] ++ map payload (transmitted (sent ++ [payload b]) l)).
      rewrite app_assoc. apply IH.
      apply NoDup_app; [exact Hs | repeat constructor; intros [] |].
      intros c Hc [<-|[]].
      apply str_in_In in Hc. congruence.
    + now apply IH.
Qed.

Lemma transmitted_In (l : list (list Barcode)) :
  forall sent c,
    In c (map payload (transmitted sent l)) <->
    (List.length c = 13 /\ str_in c sent = false /\
     exists barcodes b, In barcodes l /\ hd_error barcodes = Some b /\ payload b = c).
Proof.
  induction l as [|barcodes l IH]; intros sent c; simpl.
  - split; [intros [] | intros (_ & _ & bs & b & [] & _)].
  - assert (Hskip :
      forall bs0, (forall b, hd_error bs0 = Some b -> payload b = c ->
                   List.length c = 13 -> str_in c sent = true) ->
      (In c (map payload (transmitted sent l)) <->
       List.length c = 13 /\ str_in c sent = false /\
       exists barcodes b, (bs0 = barcodes \/ In barcodes l) /\
                          hd_error barcodes = Some b /\ payload b = c)).
    { intros bs0 Hno. rewrite IH. split.
      - intros (H1 & H2 & bs & b & Hin & Hhd & E). repeat split; auto.
        exists bs, b. auto.
      - intros (H1 & H2 & bs & b & [<-|Hin] & Hhd & E).
        + rewrite (Hno b Hhd E H1) in H2. discriminate.
        + repeat split; auto. exists bs, b. auto. }
    destruct barcodes as [|b others].
    + apply Hskip. intros b0 Hhd. discriminate.
    + destruct ((List.length (payload b) =? 13) && negb (str_in (payload b) sent)) eqn:Q.
      * apply andb_true_iff in Q. destruct Q as [Hlen Hnew].
        apply Nat.eqb_eq in Hlen. apply negb_true_iff in Hnew.
        simpl. rewrite IH. split.
        -- intros [<-|(H1 & H2 & bs & b0 & Hin & Hhd & E)].
           ++ repeat split; auto. exists (b :: others), b. auto.
           ++ rewrite str_in_app in H2. apply orb_false_iff in H2.
              repeat split; [auto | tauto |]. exists bs, b0. auto.
        -- intros (H1 & H2 & bs & b0 & Hin & Hhd & E).
           destruct (str_eqb c (payload b)) eqn:Ec.
           ++ left. apply str_eqb_eq in Ec. congruence.
           ++ right. repeat split; auto.
              ** rewrite str_in_app, H2. simpl. now rewrite Ec.
              ** destruct Hin as [<-|Hin].
                 --- simpl in Hhd. injection Hhd as <-.
                     assert (str_eqb c (payload b) = true) by (now apply str_eqb_eq).
                     congruence.
                 --- exists bs, b0. auto.
      * apply Hskip. intros b0 Hhd E H13. simpl in Hhd. injection Hhd as <-.
        rewrite E in Q. rewrite H13 in Q. simpl in Q.
        now apply negb_false_iff in Q.
Qed.

(** C4. Over any sequence of snapshots the sender writes exactly the frames
    of the transmitted barcodes; the first barcode of a snapshot is
    transmitted if and only if its code has 13 characters and has not been
    transmitted before; no code is transmitted twice, and a code is
    transmitted if and only if it has 13 characters and was presented.  The
    crops are assumed to fit the four-byte length field. *)
Theorem sender_transmits_once (snapshots : list (list Barcode)) :
  crops_fit snapshots ->
  exists st,
    loop init snapshots = ret st /\
    uart st = flat_map frame_writes (transmitted [] snapshots) /\
    pre_code st = map payload (transmitted [] snapshots) /\
    (forall earlier b others,
        transmitted [] (earlier ++ [b :: others]) =
        transmitted [] earlier ++
          (if (List.length (payload b) =? 13)
              && negb (str_in (payload b) (map payload (transmitted [] earlier)))
           then [b] else [])) /\
    NoDup (map payload (transmitted [] snapshots)) /\
    (forall c,
        In c (map payload (transmitted [] snapshots)) <->
        (List.length c = 13 /\
         exists barcodes b,
           In barcodes snapshots /\ hd_error barcodes = Some b /\ payload b = c)).
Proof.
  intros Hfit.
  destruct (loop_transmitted Hfit init) as (st & E & Hp & Hu).
  exists st. simpl in Hp, Hu.
  split; [exact E|]. split; [exact Hu|]. split; [exact Hp|].
  split; [intros earlier b others; apply (transmitted_snoc earlier [] b others)|].
  split; [apply (transmitted_NoDup snapshots []); constructor|].
  intros c. rewrite transmitted_In. split.
  - intros (H1 & _ & H3). auto.
  - intros (H1 & H3). auto.
Qed.

(** C5. On an accepted barcode the sender appends the code to [pre_code] and
    issues three writes and no other: four bytes that are the little-endian
    value of the exact byte count of the compressed crop, then the crop, then
    the bytes of the code.  These are the character codes themselves,
    thirteen bytes, when the code is ASCII, and in any case bytes that read
    back as the code in UTF-8. *)
Theorem sender_frame_writes (st : State) (b : Barcode) (others : list Barcode) :
  str_in (payload b) (pre_code st) = false ->
  List.length (payload b) = 13 ->
  (N.of_nat (List.length (crop b)) < 2 ^ 32)%N ->
  exists size_bytes id,
    capture st (b :: others) =
    ret {| pre_code := pre_code st ++ [payload b];
           uart := uart st ++ [size_bytes; crop b; id];
           led := true |} /\
    List.length size_bytes = 4 /\
    from_bytes_little size_bytes = N.of_nat (List.length (crop b)) /\
    (Forall (fun c => (c < 128)%N) (payload b) ->
     List.length id = 13 /\ map Byte.to_N id = payload b) /\
    (Forall (fun c => (c < 0x110000)%N) (payload b) ->
     decode_utf8 id = Some (payload b)).
Proof.
  intros Hnew Hlen Hfit.
  exists (little4 (N.of_nat (List.length (crop b)))), (encode_utf8 (payload b)).
  conjuncts.
  - exact (capture_accepts st b others Hnew Hlen Hfit).
  - reflexivity.
  - now apply from_bytes_little4.
  - intros Hascii. rewrite (encode_utf8_ascii _ Hascii). split.
    + now rewrite length_map.
    + exact (ascii_bytes _ Hascii).
  - exact (decode_encode_utf8 (payload b)).
Qed.

End SenderFacts.

(** ** The receiver: steps and runs *)

Section ReceiverFacts.
Import Codec Receiver Spec.

Variable W : World.

Lemma firstn_exact {A} (a b : list A) (n : nat) :
  List.length a = n -> firstn n (a ++ b) = a.
Proof.
  intros <-. rewrite firstn_app, Nat.sub_diag, firstn_all. simpl. apply app_nil_r.
Qed.

Lemma skipn_exact {A} (a b : list A) (n : nat) :
  List.length a = n -> skipn n (a ++ b) = b.
Proof.
  intros <-. rewrite skipn_app, Nat.sub_diag, skipn_all. reflexivity.
Qed.

Lemma run_step {s s1 s2 : State} {out1 out2 : list Signal} {n : nat} :
  step W s = (s1, out1) -> run W n s1 = (s2, out2) ->
  run W (S n) s = (s2, out1 ++ out2).
Proof.
  intros E1 E2. simpl. rewrite E1, E2. reflexivity.
Qed.

Lemma run_app (n m : nat) :
  forall (s s1 s2 : State) (out1 out2 : list Signal),
    run W n s = (s1, out1) -> run W m s1 = (s2, out2) ->
    run W (n + m) s = (s2, out1 ++ out2).
Proof.
  induction n as [|n IH]; intros s s1 s2 out1 out2 E1 E2.
  - simpl in E1. injection E1 as <- <-. exact E2.
  - simpl in E1. destruct (step W s) as [s' o'] eqn:Es.
    destruct (run W n s') as [s'' o''] eqn:Er.
    injection E1 as <- <-.
    simpl. rewrite Es, (IH _ _ _ _ _ Er E2). now rewrite app_assoc.
Qed.

(** The pass that reads a whole length prefix. *)
Lemma step_poll_size (s : State) (size_bytes rest : list byte) :
  pc s = Polling ->
  running W (tick s) = true ->
  (exists k, in_waiting W (tick s) = Bytes (S k)) ->
  hands_over (read_size W (tick s)) 4 ->
  wire s = size_bytes ++ rest ->
  List.length size_bytes = 4 ->
  step W s =
  (goto s (Receiving (from_bytes_little size_bytes) [] (clock W (tick s))) rest, []).
Proof.
  intros Hpc Hrun (k & Hw) (j & Hr & Hj) Hwire Hlen.
  unfold step. rewrite Hpc, Hrun. unfold poll.
  rewrite Hw, Hr, Hwire. unfold ser_read.
  replace (Nat.min 4 j) with 4 by lia.
  rewrite (firstn_exact _ _ _ Hlen), (skipn_exact _ _ _ Hlen).
  simpl. rewrite Hlen. reflexivity.
Qed.

(** A pass of the inner loop whose read returns (possibly no) bytes. *)
Lemma step_receive_chunk (s : State) {img_size : N} {img_data : list byte}
      {start_time : float} {k : nat} :
  pc s = Receiving img_size img_data start_time ->
  (N.of_nat (List.length img_data) < img_size)%N ->
  expired start_time (clock W (tick s)) = false ->
  read_chunk W (tick s) = Bytes k ->
  let m := Nat.min (N.to_nat (N.min 2048 (img_size - N.of_nat (List.length img_data)))) k in
  step W s =
  (goto s (Receiving img_size (img_data ++ firstn m (wire s)) start_time)
        (skipn m (wire s)), []).
Proof.
  intros Hpc Hlt Hexp Hr m.
  unfold step. rewrite Hpc. unfold receive.
  apply N.ltb_lt in Hlt. rewrite Hlt, Hexp, Hr. unfold ser_read.
  fold m. simpl.
  destruct (firstn m (wire s)) as [|b chunk]; simpl.
  - now rewrite app_nil_r.
  - reflexivity.
Qed.

(** The pass that finds the clock beyond the deadline. *)
Lemma step_receive_expired (s : State) {img_size : N} {img_data : list byte}
      {start_time : float} :
  pc s = Receiving img_size img_data start_time ->
  (N.of_nat (List.length img_data) < img_size)%N ->
  expired start_time (clock W (tick s)) = true ->
  step W s =
  (goto s Polling (wire s),
   [status_updated ImageTimeout;
    status_updated (ImageIncomplete (List.length img_data) img_size)]).
Proof.
  intros Hpc Hlt Hexp.
  unfold step. rewrite Hpc. unfold receive.
  pose proof Hlt as Hne. apply N.lt_neq, N.eqb_neq in Hne.
  apply N.ltb_lt in Hlt. rewrite Hlt, Hexp.
  unfold after_loop. rewrite Hne. reflexivity.
Qed.

(** The exit of the inner loop with the image complete. *)
Lemma step_receive_complete (s : State) {img_size : N} {img_data : list byte}
      {start_time : float} :
  pc s = Receiving img_size img_data start_time ->
  N.of_nat (List.length img_data) = img_size ->
  step W s =
  (let '(w, rest, st) := waybill_of W s in
   (goto s Polling rest,
    status_updated (ImageReceived img_size) :: st :: process W img_data w)).
Proof.
  intros Hpc Heq.
  unfold step. rewrite Hpc. unfold receive.
  rewrite Heq, N.ltb_irrefl. unfold after_loop.
  rewrite Heq, N.eqb_refl. simpl.
  destruct (waybill_of W s) as [[w rest] st]. reflexivity.
Qed.

(** The exit pass when the thirteen bytes of the waybill are served. *)
Lemma step_receive_waybill (s : State) (img_data id rest : list byte)
      (start_time : float) :
  pc s = Receiving (N.of_nat (List.length img_data)) img_data start_time ->
  hands_over (read_waybill W (tick s)) 13 ->
  wire s = id ++ rest ->
  List.length id = 13 ->
  step W s = (goto s Polling rest, frame_signals W img_data id).
Proof.
  intros Hpc (j & Hr & Hj) Hwire Hlen.
  rewrite (step_receive_complete s Hpc eq_refl).
  unfold waybill_of, frame_signals. rewrite Hr, Hwire. unfold ser_read.
  replace (Nat.min 13 j) with 13 by lia.
  rewrite (firstn_exact _ _ _ Hlen), (skipn_exact _ _ _ Hlen). simpl.
  destruct (decode_ascii id); reflexivity.
Qed.

Lemma firstn_add {A} (a b : nat) (l : list A) :
  firstn (a + b) l = firstn a l ++ firstn b (skipn a l).
Proof.
  revert l. induction a as [|a IH]; intros l; simpl.
  - reflexivity.
  - destruct l as [|x l]; simpl.
    + now rewrite firstn_nil.
    + now rewrite IH.
Qed.

(** One more chunk of at most [c] bytes, taken from an image of which [a]
    bytes are in. *)
Lemma take_chunk (img rest : list byte) (a c : nat) :
  a < List.length img ->
  firstn a img ++ firstn (Nat.min (List.length img - a) c) (skipn a img ++ rest)
  = firstn (a + c) img /\
  skipn (Nat.min (List.length img - a) c) (skipn a img ++ rest)
  = skipn (a + c) img ++ rest.
Proof.
  intros Ha.
  set (m := Nat.min (List.length img - a) c).
  assert (Hm : m <= List.length (skipn a img)) by (rewrite length_skipn; unfold m; lia).
  rewrite firstn_app, skipn_app.
  replace (m - List.length (skipn a img)) with 0 by lia.
  cbn [firstn skipn]. rewrite app_nil_r, <- firstn_add, skipn_skipn.
  destruct (Nat.le_gt_cases c (List.length img - a)) as [Hc|Hc].
  - replace m with c by (unfold m; lia).
    now rewrite (Nat.add_comm c a).
  - assert (Hall : List.length img <= a + m) by (unfold m; lia).
    rewrite (Nat.add_comm m a).
    rewrite (firstn_all2 (n := a + m)) by exact Hall.
    rewrite (firstn_all2 (n := a + c)) by lia.
    rewrite (skipn_all2 (n := a + m)) by exact Hall.
    rewrite (skipn_all2 (n := a + c)) by lia.
    auto.
Qed.

(** The passes of the inner loop on an image: as long as the image is
    incomplete, no read raises and the clock stays below the deadline, the
    buffer holds, after [n] passes, the first bytes of the image that the
    reads offered, however they were cut into chunks. *)
Lemma image_passes (img rest : list byte) (start_time : float) (t0 : nat) (n : nat) :
  (forall i, i < n ->
             offered_in W t0 i < List.length img /\
             (exists k, read_chunk W (t0 + S i) = Bytes k) /\
             expired start_time (clock W (t0 + S i)) = false) ->
  forall s : State,
    pc s = Receiving (N.of_nat (List.length img)) [] start_time ->
    tick s = S t0 ->
    wire s = img ++ rest ->
    run W n s =
    ({| pc := Receiving (N.of_nat (List.length img))
                        (firstn (offered_in W t0 n) img) start_time;
        tick := S t0 + n;
        wire := skipn (offered_in W t0 n) img ++ rest;
        port_open := port_open s |}, []).
Proof.
  induction n as [|n IH]; intros Hpass s Hpc Htick Hwire.
  - destruct s as [c t w o]. simpl in *. subst. now rewrite Nat.add_0_r.
  - pose proof (IH (fun i Hi => Hpass i (Nat.lt_lt_succ_r _ _ Hi)) s Hpc Htick Hwire)
      as Hrun.
    destruct (Hpass n (Nat.lt_succ_diag_r n)) as (Hlt & (k & Hk) & Hexp).
    set (a := offered_in W t0 n) in *.
    set (s1 := {| pc := Receiving (N.of_nat (List.length img)) (firstn a img) start_time;
                  tick := S t0 + n; wire := skipn a img ++ rest;
                  port_open := port_open s |}) in *.
    assert (Hlen : List.length (firstn a img) = a) by (rewrite length_firstn; lia).
    assert (Ht : tick s1 = t0 + S n) by (simpl; lia).
    assert (Hstep := step_receive_chunk s1 (k := k) eq_refl).
    rewrite Ht in Hstep. specialize (Hstep ltac:(rewrite Hlen; lia) Hexp Hk).
    cbv zeta in Hstep. rewrite Hlen in Hstep.
    replace (Nat.min (N.to_nat (N.min 2048 (N.of_nat (List.length img) - N.of_nat a))) k)
      with (Nat.min (List.length img - a) (Nat.min 2048 k)) in Hstep by lia.
    cbn [wire s1] in Hstep.
    destruct (take_chunk img rest a (Nat.min 2048 k) Hlt) as [E1 E2].
    rewrite E1, E2 in Hstep.
    replace (S n) with (n + 1) at 1 by lia.
    rewrite (run_app n 1 _ _ _ _ _ Hrun (run_step (n := 0) Hstep eq_refl)).
    cbn [offered_in offered]. rewrite Hk. cbn [offered].
    unfold goto. cbn [tick port_open s1 app]. do 2 f_equal. lia.
Qed.

(** A frame at the head of the wire is received whole by a world that
    serves it: [n + 2] steps after the poll, the thread is back at the top
    of its loop with the rest of the wire untouched, and it has emitted the
    signals of that frame. *)
Lemma receive_frame (s : State) (size_bytes img id rest : list byte) (n : nat) :
  pc s = Polling ->
  wire s = size_bytes ++ img ++ id ++ rest ->
  is_frame size_bytes img id ->
  serves W (tick s) (List.length img) n ->
  run W (n + 2) s =
  ({| pc := Polling; tick := tick s + (n + 2); wire := rest; port_open := port_open s |},
   frame_signals W img id).
Proof.
  intros Hpc Hwire (Hlen4 & Hsize & Hlen13) Hs.
  destruct Hs as [Hrun Hwait Hrsize Hpasses Hcomplete Hwaybill].
  pose proof (step_poll_size s size_bytes (img ++ id ++ rest)
                Hpc Hrun Hwait Hrsize Hwire Hlen4) as Hstep1.
  rewrite Hsize in Hstep1.
  set (s1 := goto s (Receiving (N.of_nat (List.length img)) [] (clock W (tick s)))
                  (img ++ id ++ rest)) in *.
  pose proof (image_passes img (id ++ rest) (clock W (tick s)) (tick s) n Hpasses
                s1 eq_refl eq_refl eq_refl) as Hrun2.
  rewrite (firstn_all2 (n := offered_in W (tick s) n)) in Hrun2 by exact Hcomplete.
  rewrite (skipn_all2 (n := offered_in W (tick s) n)) in Hrun2 by exact Hcomplete.
  cbn [app port_open s1 goto] in Hrun2.
  set (s2 := {| pc := Receiving (N.of_nat (List.length img)) img (clock W (tick s));
                tick := S (tick s) + n; wire := id ++ rest;
                port_open := port_open s |}) in *.
  assert (Hstep3 : step W s2 = (goto s2 Polling rest, frame_signals W img id)).
  { apply step_receive_waybill with (start_time := clock W (tick s)).
    - reflexivity.
    - replace (tick s2) with (tick s + S n) by (simpl; lia). exact Hwaybill.
    - reflexivity.
    - exact Hlen13. }
  replace (n + 2) with (S (n + 1)) at 1 by lia.
  rewrite (run_step Hstep1
             (run_app n 1 _ _ _ _ _ Hrun2 (run_step (n := 0) Hstep3 eq_refl))).
  simpl. rewrite app_nil_r. f_equal.
  unfold goto, s2. simpl. f_equal. lia.
Qed.

End ReceiverFacts.

(** ** Round trip and chunking *)

Section RoundTrip.
Import Codec Receiver Spec Examples.

Lemma byte_of_N_to_N (b : byte) : byte_of_N (Byte.to_N b) = b.
Proof.
  unfold byte_of_N.
  rewrite N.mod_small by (pose proof (Byte.to_N_bounded b); lia).
  now rewrite Byte.of_to_N.
Qed.

Lemma encode_utf8_of_bytes (id : list byte) :
  Forall (fun x => (Byte.to_N x < 128)%N) id -> encode_utf8 (map Byte.to_N id) = id.
Proof.
  intros H. rewrite encode_utf8_ascii.
  - rewrite map_map. rewrite <- (map_id id) at 2.
    apply map_ext. apply byte_of_N_to_N.
  - rewrite Forall_forall in *. intros c Hc.
    apply in_map_iff in Hc. destruct Hc as (x & <- & Hx). auto.
Qed.

Lemma step_open (W : World) (stream : list byte) :
  opens W = None ->
  step W (start stream) =
  ({| pc := Polling; tick := 1; wire := stream; port_open := true |},
   [status_updated (PortConnected (serial_port W))]).
Proof.
  intros H. unfold step. simpl. now rewrite H.
Qed.

Lemma frame_signals_ext (W1 W2 : World) (img id : list byte) :
  pipeline W1 img = pipeline W2 img ->
  frame_signals W1 img id = frame_signals W2 img id.
Proof.
  intros H. unfold frame_signals, process. now rewrite H.
Qed.

(** The image of a thousand bytes takes four passes of the ragged port, the
    last of them four seconds after the length was read. *)
Lemma serves_ragged : serves ragged 1 (List.length zeros) 4.
Proof.
  constructor.
  - reflexivity.
  - now exists 0.
  - exists 4. split; [reflexivity | lia].
  - intros i Hi.
    destruct i as [|[|[|[|i]]]]; [| | | | lia];
      (split; [vm_compute; lia | split; [eexists; reflexivity | reflexivity]]).
  - vm_compute. lia.
  - exists 13. split; [reflexivity | lia].
Qed.

(** The steady port serves in one pass every frame whose image one read can
    take, when polled at a step whose clock reading is within five seconds
    of the next. *)
Lemma serves_steady (t0 len : nat) :
  0 < len <= 2048 ->
  expired (seconds t0) (seconds (t0 + 1)) = false ->
  serves steady t0 len 1.
Proof.
  intros Hlen Hclock. constructor.
  - reflexivity.
  - now exists 0.
  - exists 4096. split; [reflexivity | lia].
  - intros i Hi. assert (i = 0) by lia. subst i.
    split; [cbn [offered_in]; lia|]. split; [now exists 4096|].
    exact Hclock.
  - cbn [offered_in offered steady read_chunk]. change (Nat.min 2048 4096) with 2048. lia.
  - exists 4096. split; [reflexivity | lia].
Qed.

Lemma serves_steady_zeros : serves steady 1 (List.length zeros) 1.
Proof. apply serves_steady; [vm_compute; lia | reflexivity]. Qed.

(** With one byte per read no length prefix is ever read whole. *)
Lemma bytewise_polls_for_ever (n : nat) :
  forall s, pc s = Polling ->
            pc (fst (run bytewise n s)) = Polling /\ snd (run bytewise n s) = [].
Proof.
  induction n as [|n IH]; intros s Hpc; simpl.
  - auto.
  - assert (Hstep : step bytewise s = (goto s Polling (skipn 1 (wire s)), [])).
    { unfold step. rewrite Hpc. simpl. unfold poll. simpl.
      destruct (wire s) as [|b w]; reflexivity. }
    rewrite Hstep.
    destruct (IH (goto s Polling (skipn 1 (wire s))) eq_refl) as [H1 H2].
    destruct (run bytewise n (goto s Polling (skipn 1 (wire s)))) as [s' out].
    simpl in *. subst. auto.
Qed.

Lemma process_record (W : World) (img : list byte) (w : str) (r : Result) :
  pipeline W img = ret r ->
  process W img w =
  [new_data {| name := name r; phone := phone r; text := text r; waybill := w |};
   status_updated OcrDone].
Proof.
  intros H. unfold process. rewrite H. reflexivity.
Qed.

Lemma frame_signals_record (W : World) (img id : list byte) (w : str) (r : Result) :
  decode_ascii id = ret w ->
  pipeline W img = ret r ->
  frame_signals W img id =
  [status_updated (ImageReceived (N.of_nat (List.length img)));
   status_updated (WaybillReceived w);
   new_data {| name := name r; phone := phone r; text := text r; waybill := w |};
   status_updated OcrDone].
Proof.
  intros Hdec Hr. unfold frame_signals. unfold ret in Hdec. rewrite Hdec.
  now rewrite (process_record W img w r Hr).
Qed.

Lemma frame_signals_placeholder (W : World) (img id : list byte) (e : exn) (r : Result) :
  decode_ascii id = raise e ->
  pipeline W img = ret r ->
  frame_signals W img id =
  [status_updated (ImageReceived (N.of_nat (List.length img)));
   status_updated (WaybillError e);
   new_data {| name := name r; phone := phone r; text := text r;
               waybill := [0x8BFB; 0x53D6; 0x5931; 0x8D25]%N |};
   status_updated OcrDone].
Proof.
  intros Hdec Hr. unfold frame_signals. unfold raise in Hdec. rewrite Hdec.
  now rewrite (process_record W img read_failed r Hr).
Qed.

(** C1 (amended). An image [img] shorter than 2^32 bytes and thirteen ASCII
    bytes [id] come back exactly: the sender frames them as the four bytes of
    the length, the image, the identifier, and the receiver, run on these
    bytes over a port that opens and serves this frame in [n] passes of its
    inner loop, signals the length of the image and the identifier as a
    string and hands exactly [img] and that string to the pipeline, whose
    record it emits with that string as waybill; after [n + 3] steps it is
    back at the top of its loop with the wire empty. *)
Theorem round_trip_ascii (W : World) (img id : list byte) (n : nat) :
  (N.of_nat (List.length img) < 2 ^ 32)%N ->
  List.length id = 13 ->
  Forall (fun x => (Byte.to_N x < 128)%N) id ->
  opens W = None ->
  serves W 1 (List.length img) n ->
  exists st final,
    Sender.capture Sender.init
      [{| Sender.payload := map Byte.to_N id; Sender.crop := img |}] = ret st /\
    Sender.line st = little4 (N.of_nat (List.length img)) ++ img ++ id /\
    run W (n + 3) (start (Sender.line st)) =
    (final,
     status_updated (PortConnected (serial_port W))
       :: status_updated (ImageReceived (N.of_nat (List.length img)))
       :: status_updated (WaybillReceived (map Byte.to_N id))
       :: process W img (map Byte.to_N id)) /\
    pc final = Polling /\ wire final = [] /\
    (forall r, pipeline W img = ret r ->
               process W img (map Byte.to_N id) =
               [new_data {| name := name r; phone := phone r; text := text r;
                            waybill := map Byte.to_N id |};
                status_updated OcrDone]).
Proof.
  intros Hfit Hlen Hascii Hopen Hs.
  set (b := {| Sender.payload := map Byte.to_N id; Sender.crop := img |}).
  pose proof (capture_accepts Sender.init b [] eq_refl
                ltac:(simpl; now rewrite length_map) Hfit) as Hcap.
  assert (Hline : Sender.line
                    {| Sender.pre_code := Sender.pre_code Sender.init ++ [Sender.payload b];
                       Sender.uart := Sender.uart Sender.init ++ frame_writes b;
                       Sender.led := true |}
                  = little4 (N.of_nat (List.length img)) ++ img ++ id).
  { unfold Sender.line. simpl. rewrite app_nil_r.
    now rewrite (encode_utf8_of_bytes id Hascii). }
  assert (Hframe : is_frame (little4 (N.of_nat (List.length img))) img id)
    by (unfold is_frame; conjuncts;
        [reflexivity | now apply from_bytes_little4 | exact Hlen]).
  pose proof (receive_frame W
                {| pc := Polling; tick := 1;
                   wire := little4 (N.of_nat (List.length img)) ++ img ++ id;
                   port_open := true |}
                (little4 (N.of_nat (List.length img))) img id [] n
                eq_refl ltac:(simpl; now rewrite app_nil_r) Hframe Hs) as Hrun.
  eexists. eexists. split; [exact Hcap|]. split; [exact Hline|].
  rewrite Hline.
  replace (n + 3) with (S (n + 2)) by lia.
  rewrite (run_step W (step_open W _ Hopen) Hrun).
  unfold frame_signals, decode_ascii.
  rewrite (decode_ascii_from_ok id Hascii). simpl.
  conjuncts; try reflexivity.
  intros r Hr. exact (process_record W img _ r Hr).
Qed.

(** A check of C1: a thousand zero bytes and the code 1234567890123, the
    image arriving in chunks of 2, 0, 500 and 498 bytes, one second apart. *)
Lemma round_trip_ascii_witness :
  ((N.of_nat (List.length zeros) < 2 ^ 32)%N /\
   List.length id13 = 13 /\
   Forall (fun x => (Byte.to_N x < 128)%N) id13 /\
   opens ragged = None /\
   serves ragged 1 (List.length zeros) 4) /\
  exists st final,
    Sender.capture Sender.init
      [{| Sender.payload := map Byte.to_N id13; Sender.crop := zeros |}] = ret st /\
    Sender.line st = little4 (N.of_nat (List.length zeros)) ++ zeros ++ id13 /\
    run ragged (4 + 3) (start (Sender.line st)) =
    (final,
     status_updated (PortConnected (serial_port ragged))
       :: status_updated (ImageReceived (N.of_nat (List.length zeros)))
       :: status_updated (WaybillReceived (map Byte.to_N id13))
       :: process ragged zeros (map Byte.to_N id13)) /\
    pc final = Polling /\ wire final = [] /\
    (forall r, pipeline ragged zeros = ret r ->
               process ragged zeros (map Byte.to_N id13) =
               [new_data {| name := name r; phone := phone r; text := text r;
                            waybill := map Byte.to_N id13 |};
                status_updated OcrDone]).
Proof.
  assert (H1 : (N.of_nat (List.length zeros) < 2 ^ 32)%N) by (vm_compute; reflexivity).
  assert (H3 : Forall (fun x => (Byte.to_N x < 128)%N) id13)
    by (repeat constructor).
  split.
  - conjuncts; [exact H1 | reflexivity | exact H3 | reflexivity | exact serves_ragged].
  - exact (round_trip_ascii ragged zeros id13 4 H1 eq_refl H3 eq_refl serves_ragged).
Defined.

(** C1 as stated fails on an identifier that is not ASCII: the frame of the
    image 01 02 03 and thirteen bytes FF, read over a port that serves the
    frame, every read in full, yields the record of the image with the
    placeholder, not the identifier. *)
Lemma round_trip_non_ascii :
  is_frame [x03; x00; x00; x00] img3 idff /\
  serves steady 1 (List.length img3) 1 /\
  run steady 4 (start ([x03; x00; x00; x00] ++ img3 ++ idff)) =
  (polling 4 [],
   [status_updated (PortConnected "/dev/ttyAMA1");
    status_updated (ImageReceived 3);
    status_updated (WaybillError (UnicodeDecodeError xff 0));
    new_data {| name := []; phone := []; text := [1; 2; 3]%N; waybill := read_failed |};
    status_updated OcrDone]) /\
  read_failed <> map Byte.to_N idff.
Proof.
  split; [|split; [|split]].
  - repeat split.
  - apply serves_steady; [simpl; lia | reflexivity].
  - vm_compute. reflexivity.
  - discriminate.
Qed.

(** C2 (amended). Two worlds that serve a frame, each cutting the image into
    chunks of its own and taking its own number of passes, make the receiver
    emit the same signals for it, with the same image and the same
    identifier, and leave the same bytes on the wire: when the pipeline
    returns a record for the image, the signals are the length of the image,
    the identifier as a string and that record with the identifier as its
    waybill, or, when the identifier does not decode, the error and the
    record with the placeholder. *)
Theorem chunking_independent (W1 W2 : World) (s : State)
        (size_bytes img id rest : list byte) (n1 n2 : nat) :
  (forall x, pipeline W1 x = pipeline W2 x) ->
  pc s = Polling ->
  wire s = size_bytes ++ img ++ id ++ rest ->
  is_frame size_bytes img id ->
  serves W1 (tick s) (List.length img) n1 ->
  serves W2 (tick s) (List.length img) n2 ->
  exists s1 s2 out,
    run W1 (n1 + 2) s = (s1, out) /\ run W2 (n2 + 2) s = (s2, out) /\
    out = frame_signals W1 img id /\
    pc s1 = Polling /\ pc s2 = Polling /\ wire s1 = rest /\ wire s2 = rest /\
    (forall r w,
        pipeline W1 img = ret r -> decode_ascii id = ret w ->
        out = [status_updated (ImageReceived (N.of_nat (List.length img)));
               status_updated (WaybillReceived w);
               new_data {| name := name r; phone := phone r; text := text r;
                           waybill := w |};
               status_updated OcrDone]) /\
    (forall r e,
        pipeline W1 img = ret r -> decode_ascii id = raise e ->
        out = [status_updated (ImageReceived (N.of_nat (List.length img)));
               status_updated (WaybillError e);
               new_data {| name := name r; phone := phone r; text := text r;
                           waybill := [0x8BFB; 0x53D6; 0x5931; 0x8D25]%N |};
               status_updated OcrDone]).
Proof.
  intros Hpipe Hpc Hwire Hframe Hs1 Hs2.
  pose proof (receive_frame W1 s size_bytes img id rest n1 Hpc Hwire Hframe Hs1) as H1.
  pose proof (receive_frame W2 s size_bytes img id rest n2 Hpc Hwire Hframe Hs2) as H2.
  rewrite <- (frame_signals_ext W1 W2 img id (Hpipe img)) in H2.
  do 3 eexists.
  split; [exact H1|]. split; [exact H2|].
  conjuncts; try reflexivity.
  - intros r w Hr Hdec. exact (frame_signals_record W1 img id w r Hdec Hr).
  - intros r e Hr Hdec. exact (frame_signals_placeholder W1 img id e r Hdec Hr).
Qed.

(** A check of C2: the thousand zero bytes in one chunk, and in chunks of 2,
    0, 500 and 498 bytes, one second apart in both. *)
Lemma chunking_independent_witness :
  ((forall x, pipeline steady x = pipeline ragged x) /\
   pc (polling 1 ([xe8; x03; x00; x00] ++ zeros ++ id13 ++ [])) = Polling /\
   is_frame [xe8; x03; x00; x00] zeros id13 /\
   serves steady 1 (List.length zeros) 1 /\
   serves ragged 1 (List.length zeros) 4) /\
  run steady (1 + 2) (polling 1 ([xe8; x03; x00; x00] ++ zeros ++ id13 ++ []))
  = (polling 4 [],
     [status_updated (ImageReceived 1000);
      status_updated (WaybillReceived code13);
      new_data {| name := []; phone := []; text := map Byte.to_N zeros; waybill := code13 |};
      status_updated OcrDone]) /\
  run ragged (4 + 2) (polling 1 ([xe8; x03; x00; x00] ++ zeros ++ id13 ++ []))
  = (polling 7 [],
     [status_updated (ImageReceived 1000);
      status_updated (WaybillReceived code13);
      new_data {| name := []; phone := []; text := map Byte.to_N zeros; waybill := code13 |};
      status_updated OcrDone]).
Proof.
  assert (Hf : is_frame [xe8; x03; x00; x00] zeros id13)
    by (repeat split; vm_compute; reflexivity).
  split.
  - conjuncts; [intros x; reflexivity | reflexivity | exact Hf
                | exact serves_steady_zeros | exact serves_ragged].
  - destruct (chunking_independent steady ragged
                (polling 1 ([xe8; x03; x00; x00] ++ zeros ++ id13 ++ []))
                [xe8; x03; x00; x00] zeros id13 [] 1 4
                (fun x => eq_refl) eq_refl eq_refl Hf serves_steady_zeros serves_ragged)
      as (s1 & s2 & out & H1 & H2 & _ & Hp1 & Hp2 & Hw1 & Hw2 & Hout & _).
    rewrite H1, H2.
    rewrite (Hout {| name := []; phone := []; text := map Byte.to_N zeros; waybill := [] |}
                  code13 eq_refl eq_refl).
    split; (apply f_equal2; [|reflexivity]).
    + pose proof (f_equal fst H1) as T. vm_compute in T. rewrite <- T. reflexivity.
    + pose proof (f_equal fst H2) as T. vm_compute in T. rewrite <- T. reflexivity.
Defined.

(** C2 as stated fails: the frame of the image 01 02 03 with the code
    1234567890123 yields its record when every read is served in full, and
    nothing at all, however long the thread runs, when each read returns one
    byte. *)
Lemma bytewise_loses_frame :
  is_frame [x03; x00; x00; x00] img3 id13 /\
  run whole 4 (start frame3) =
  (polling 4 [],
   [status_updated (PortConnected "/dev/ttyAMA1");
    status_updated (ImageReceived 3);
    status_updated (WaybillReceived code13);
    new_data {| name := []; phone := []; text := [1; 2; 3]%N; waybill := code13 |};
    status_updated OcrDone]) /\
  (forall n, snd (run bytewise (S n) (start frame3)) =
             [status_updated (PortConnected "/dev/ttyAMA1")]).
Proof.
  split; [|split].
  - repeat split.
  - vm_compute. reflexivity.
  - intros n.
    destruct (bytewise_polls_for_ever n
                {| pc := Polling; tick := 1; wire := frame3; port_open := true |} eq_refl)
      as [_ H].
    destruct (run bytewise n {| pc := Polling; tick := 1; wire := frame3; port_open := true |})
      as [s' out] eqn:E.
    simpl in H. subst out.
    rewrite (run_step bytewise (step_open bytewise frame3 eq_refl) E). reflexivity.
Qed.

End RoundTrip.

(** ** The cases of a step *)

Section StepCases.
Import Codec Receiver Spec.

Variable W : World.

Lemma step_receiving (s : State) {img_size : N} {img_data : list byte}
      {start_time : float} :
  pc s = Receiving img_size img_data start_time ->
  receiving_case W s img_size img_data start_time.
Proof.
  intros Hpc.
  destruct (N.lt_trichotomy (N.of_nat (List.length img_data)) img_size) as [Hlt|[Heq|Hgt]].
  - destruct (expired start_time (clock W (tick s))) eqn:Hexp.
    + apply case_expired; auto. exact (step_receive_expired W s Hpc Hlt Hexp).
    + destruct (read_chunk W (tick s)) as [k|e] eqn:Hr.
      * apply (case_chunk _ _ _ _ _ k); auto.
        exact (step_receive_chunk W s Hpc Hlt Hexp Hr).
      * apply (case_read_raises _ _ _ _ _ e); auto.
        unfold step. rewrite Hpc. unfold receive.
        apply N.ltb_lt in Hlt. rewrite Hlt, Hexp, Hr. reflexivity.
  - apply case_complete; auto. exact (step_receive_complete W s Hpc Heq).
  - apply case_overrun; auto.
    unfold step. rewrite Hpc. unfold receive, after_loop.
    assert (H1 : (N.of_nat (List.length img_data) <? img_size)%N = false)
      by (apply N.ltb_ge; lia).
    assert (H2 : (N.of_nat (List.length img_data) =? img_size)%N = false)
      by (apply N.eqb_neq; lia).
    rewrite H1, H2. reflexivity.
Qed.

Lemma step_polling (s : State) : pc s = Polling -> polling_case W s.
Proof.
  intros Hpc.
  destruct (running W (tick s)) eqn:Hrun.
  2: { apply case_stop; auto. unfold step. now rewrite Hpc, Hrun. }
  destruct (in_waiting W (tick s)) as [[|k]|e] eqn:Hw.
  - apply case_idle; auto. unfold step. rewrite Hpc, Hrun. unfold poll. now rewrite Hw.
  - destruct (read_size W (tick s)) as [j|e] eqn:Hr.
    + destruct (Nat.ltb_spec (List.length (firstn (Nat.min 4 j) (wire s))) 4) as [Hs|Hs].
      * apply (case_short _ _ k j); auto.
        unfold step. rewrite Hpc, Hrun. unfold poll. rewrite Hw, Hr.
        unfold ser_read, bind, ret.
        apply Nat.ltb_lt in Hs. now rewrite Hs.
      * apply (case_size _ _ k j); auto.
        unfold step. rewrite Hpc, Hrun. unfold poll. rewrite Hw, Hr.
        unfold ser_read, bind, ret.
        apply Nat.ltb_ge in Hs. now rewrite Hs.
    + apply (case_size_raises _ _ k e); auto.
      unfold step. rewrite Hpc, Hrun. unfold poll. now rewrite Hw, Hr.
  - apply (case_waiting_raises _ _ e); auto.
    unfold step. rewrite Hpc, Hrun. unfold poll. now rewrite Hw.
Qed.

Lemma step_returned (s : State) : pc s = Returned -> step W s = (s, []).
Proof.
  intros Hpc. unfold step. now rewrite Hpc.
Qed.

Lemma run_returned (n : nat) (s : State) : pc s = Returned -> run W n s = (s, []).
Proof.
  intros Hpc. induction n as [|n IH]; simpl.
  - reflexivity.
  - now rewrite (step_returned s Hpc), IH.
Qed.

(** The bytes of the waybill read never touch the buffer: the exit pass
    leaves the loop for the top of the outer one. *)
Lemma waybill_of_goto (s : State) (img_size : N) (img_data : list byte) :
  pc (fst (let '(w, rest, st) := waybill_of W s in
           (goto s Polling rest,
            status_updated (ImageReceived img_size) :: st :: process W img_data w)))
  = Polling.
Proof.
  destruct (waybill_of W s) as [[w rest] st]. reflexivity.
Qed.

(** A step keeps the buffer within its target. *)
Lemma step_within_target (s : State) :
  within_target s -> within_target (fst (step W s)).
Proof.
  intros Hin. unfold within_target in *.
  destruct (pc s) as [| |img_size img_data start_time|] eqn:Hpc.
  - unfold step. rewrite Hpc. destruct (opens W); exact I.
  - destruct (step_polling s Hpc) as [? E|? ? ? E|? ? E|? ? ? ? ? E|? ? ? ? ? ? E|? ? ? ? ? ? E];
      rewrite E; simpl; try exact I. lia.
  - destruct (step_receiving s Hpc) as [? ? E|k Hlt ? ? E|? ? ? ? E|? E|? E];
      rewrite E; simpl; try exact I.
    + rewrite length_app, length_firstn. lia.
    + rewrite waybill_of_goto. exact I.
  - rewrite (step_returned s Hpc). simpl. now rewrite Hpc.
Qed.

Lemma run_within_target (n : nat) :
  forall s, within_target s -> within_target (fst (run W n s)).
Proof.
  induction n as [|n IH]; intros s Hin; simpl.
  - exact Hin.
  - pose proof (step_within_target s Hin) as H1.
    destruct (step W s) as [s1 out1]. simpl in H1.
    specialize (IH s1 H1).
    destruct (run W n s1) as [s2 out2]. exact IH.
Qed.

End StepCases.

(** ** Deadline, short reads and failures *)

Section ReceiverClaims.
Import Codec Receiver Spec Examples.

(** C3. The deadline of a frame is five seconds of wall clock counted from
    the reading taken when its length prefix was read: the reading is stored
    with an empty buffer, a pass that stays in the inner loop keeps it
    whatever it read, and a pass that finds the image incomplete and
    [time.time() - start_time > 5] aborts the frame, whatever the port holds:
    it signals the timeout, drops the buffer and goes back to the top of the
    outer loop. *)
Theorem deadline_from_start (W : World) (s : State) :
  (forall sz data st,
      pc s = Polling -> pc (fst (step W s)) = Receiving sz data st ->
      st = clock W (tick s) /\ data = []) /\
  (forall sz data st sz' data' st',
      pc s = Receiving sz data st -> pc (fst (step W s)) = Receiving sz' data' st' ->
      sz' = sz /\ st' = st) /\
  (forall sz data st,
      pc s = Receiving sz data st ->
      (N.of_nat (List.length data) < sz)%N ->
      PrimFloat.ltb 5%float (PrimFloat.sub (clock W (tick s)) st) = true ->
      step W s =
      (goto s Polling (wire s),
       [status_updated ImageTimeout;
        status_updated (ImageIncomplete (List.length data) sz)])).
Proof.
  conjuncts.
  - intros sz data st Hpc H.
    destruct (step_polling W s Hpc) as [? E|? ? ? E|? ? E|? ? ? ? ? E|? ? ? ? ? ? E|? ? ? ? ? ? E];
      rewrite E in H; simpl in H; try discriminate.
    injection H as _ <- <-. auto.
  - intros sz data st sz' data' st' Hpc H.
    destruct (step_receiving W s Hpc) as [? ? E|k Hlt ? ? E|? ? ? ? E|? E|? E];
      rewrite E in H; simpl in H; try discriminate.
    + injection H as <- _ <-. auto.
    + rewrite waybill_of_goto in H. discriminate.
  - intros sz data st Hpc Hlt Hexp.
    exact (step_receive_expired W s Hpc Hlt Hexp).
Qed.

(** A check of C3: two of three bytes are in, the third is on the wire and the
    port would hand it over, but the clock reads 105.5 against a start at
    100.0; one step earlier, at 100.0, the pass reads on and keeps the
    start. *)
Lemma deadline_from_start_witness :
  step slow (midway 3) =
  (goto (midway 3) Polling (wire (midway 3)),
   [status_updated ImageTimeout; status_updated (ImageIncomplete 2 3)]) /\
  step slow (midway 2) =
  ({| pc := Receiving 3 img3 100%float; tick := 3; wire := id13; port_open := true |}, []).
Proof.
  split.
  - exact (proj2 (proj2 (deadline_from_start slow (midway 3)))
                 3%N [x01; x02] 100%float eq_refl eq_refl eq_refl).
  - reflexivity.
Defined.



(** C7 (amended). When bytes are reported and the read of the length prefix
    returns fewer than four bytes, the thread stays at the top of its loop
    and signals nothing, and the read is made again at the next pass; the
    bytes that the short read returned are gone from the wire, so that the
    next length is read from the bytes that follow them.  The wire is left as
    it was when the short read returned no byte. *)
Theorem short_size_read_drops_bytes (W : World) (s : State) (k j : nat) :
  pc s = Polling ->
  running W (tick s) = true ->
  in_waiting W (tick s) = Bytes (S k) ->
  read_size W (tick s) = Bytes j ->
  List.length (firstn (Nat.min 4 j) (wire s)) < 4 ->
  step W s = (goto s Polling (skipn (Nat.min 4 j) (wire s)), []) /\
  wire s = firstn (Nat.min 4 j) (wire s) ++ wire (fst (step W s)) /\
  (firstn (Nat.min 4 j) (wire s) = [] -> wire (fst (step W s)) = wire s).
Proof.
  intros Hpc Hrun Hw Hr Hshort.
  assert (E : step W s = (goto s Polling (skipn (Nat.min 4 j) (wire s)), [])).
  { destruct (step_polling W s Hpc)
      as [? E|? ? ? E|? ? E|? ? ? ? ? E|k1 j1 ? ? Hr1 ? E|k1 j1 ? ? Hr1 Hlong E];
      try congruence.
    rewrite Hr in Hr1. injection Hr1 as <-. lia. }
  rewrite E. cbn [fst wire goto]. conjuncts.
  - reflexivity.
  - now rewrite firstn_skipn.
  - intros H0. rewrite <- (firstn_skipn (Nat.min 4 j) (wire s)) at 2.
    now rewrite H0.
Qed.

Lemma short_size_read_drops_bytes_witness :
  (pc (polling 1 frame3) = Polling /\
   running short_first 1 = true /\
   in_waiting short_first 1 = Bytes 2 /\
   read_size short_first 1 = Bytes 2 /\
   List.length (firstn (Nat.min 4 2) (wire (polling 1 frame3))) < 4) /\
  step short_first (polling 1 frame3)
  = (goto (polling 1 frame3) Polling (skipn (Nat.min 4 2) (wire (polling 1 frame3))), []) /\
  wire (polling 1 frame3)
  = firstn (Nat.min 4 2) (wire (polling 1 frame3))
    ++ wire (fst (step short_first (polling 1 frame3))) /\
  (firstn (Nat.min 4 2) (wire (polling 1 frame3)) = [] ->
   wire (fst (step short_first (polling 1 frame3))) = wire (polling 1 frame3)).
Proof.
  assert (H : List.length (firstn (Nat.min 4 2) (wire (polling 1 frame3))) < 4)
    by (simpl; lia).
  split.
  - conjuncts; [reflexivity | reflexivity | reflexivity | reflexivity | exact H].
  - exact (short_size_read_drops_bytes short_first (polling 1 frame3) 1 2
             eq_refl eq_refl eq_refl eq_refl H).
Defined.

(** C7 as stated fails: the frame of the image 01 02 03 has the length prefix
    03 00 00 00; when the first read of the length returns its first two
    bytes only, the thread reads the next length from 00 00 01 02 and waits
    for an image of 33619968 bytes, although every later read is served in
    full. *)
Lemma short_size_read_misparses :
  is_frame [x03; x00; x00; x00] img3 id13 /\
  run short_first 3 (start frame3) =
  ({| pc := Receiving 33619968 [] 0%float; tick := 3;
      wire := x03 :: id13; port_open := true |},
   [status_updated (PortConnected "/dev/ttyAMA1")]) /\
  run whole 2 (start frame3) =
  ({| pc := Receiving 3 [] 0%float; tick := 2;
      wire := img3 ++ id13; port_open := true |},
   [status_updated (PortConnected "/dev/ttyAMA1")]).
Proof.
  split; [unfold is_frame; conjuncts; reflexivity|].
  split; vm_compute; reflexivity.
Qed.

(** C8 (amended). A failure of the link ends the run and is reported: when
    the port does not open, or when the query for waiting bytes, the read of
    the length or a read of the image raises, the thread signals the error
    and returns, and nothing is tried again.  A frame in progress ends the
    run in no other way than by a read of the image that raises: a timeout,
    a waybill that cannot be read or decoded, a pipeline that raises all
    leave the thread in its loop; an error raised by the read of the waybill
    is reported as a waybill error and the frame is dispatched with the
    placeholder.  A stop request closes the port. *)
Theorem link_failure_ends_run (W : World) (s : State) :
  (forall e, pc s = Opening -> opens W = Some e ->
             step W s = (goto s Returned (wire s), [status_updated (PortError e)])) /\
  (forall e, pc s = Polling -> running W (tick s) = true ->
             in_waiting W (tick s) = Raises e ->
             step W s = (goto s Returned (wire s), [status_updated (PortError e)])) /\
  (forall k e, pc s = Polling -> running W (tick s) = true ->
               in_waiting W (tick s) = Bytes (S k) ->
               read_size W (tick s) = Raises e ->
               step W s = (goto s Returned (wire s), [status_updated (PortError e)])) /\
  (forall sz data st e,
      pc s = Receiving sz data st ->
      (N.of_nat (List.length data) < sz)%N ->
      expired st (clock W (tick s)) = false ->
      read_chunk W (tick s) = Raises e ->
      step W s = (goto s Returned (wire s), [status_updated (PortError e)])) /\
  (forall n, pc s = Returned -> run W n s = (s, [])) /\
  (forall sz data st,
      pc s = Receiving sz data st ->
      pc (fst (step W s)) = Returned ->
      exists e, read_chunk W (tick s) = Raises e /\
                step W s = (goto s Returned (wire s), [status_updated (PortError e)])) /\
  (forall sz data st e,
      pc s = Receiving sz data st ->
      N.of_nat (List.length data) = sz ->
      read_waybill W (tick s) = Raises e ->
      step W s =
      (goto s Polling (wire s),
       status_updated (ImageReceived sz)
         :: status_updated (WaybillError e)
         :: process W data read_failed)) /\
  (pc s = Polling -> running W (tick s) = false ->
   step W s =
   ({| pc := Returned; tick := S (tick s); wire := wire s; port_open := false |},
    [status_updated PortClosed])).
Proof.
  conjuncts.
  - intros e Hpc Ho. unfold step. now rewrite Hpc, Ho.
  - intros e Hpc Hrun Hw.
    destruct (step_polling W s Hpc) as [? E|? ? ? E|? ? E|? ? ? ? ? E|? ? ? ? ? ? E|? ? ? ? ? ? E];
      try congruence.
    rewrite E. unfold link_failed. congruence.
  - intros k e Hpc Hrun Hw Hr.
    destruct (step_polling W s Hpc) as [? E|? ? ? E|? ? E|? ? ? ? ? E|? ? ? ? ? ? E|? ? ? ? ? ? E];
      try congruence.
    rewrite E. unfold link_failed. congruence.
  - intros sz data st e Hpc Hlt Hexp Hr.
    destruct (step_receiving W s Hpc) as [? ? E|? ? ? ? E|? ? ? ? E|? E|? E];
      try congruence; try lia.
    rewrite E. unfold link_failed. congruence.
  - intros n Hpc. now apply run_returned.
  - intros sz data st Hpc H.
    destruct (step_receiving W s Hpc) as [? ? E|? ? ? ? E|e ? ? Hr E|? E|? E];
      rewrite E in H; simpl in H; try discriminate.
    + exists e. split; [exact Hr | exact E].
    + rewrite waybill_of_goto in H. discriminate.
  - intros sz data st e Hpc Hsz Hr.
    rewrite (step_receive_complete W s Hpc Hsz).
    unfold waybill_of. rewrite Hr. reflexivity.
  - intros Hpc Hrun. unfold step. now rewrite Hpc, Hrun.
Qed.

(** A check of C8: the device disappears while an image is being read. *)
Lemma link_failure_ends_run_witness :
  step (unplugged 3) (midway 3) =
  (goto (midway 3) Returned (wire (midway 3)),
   [status_updated (PortError (SerialException "device disconnected"))]) /\
  run (unplugged 3) 7 (fst (step (unplugged 3) (midway 3))) =
  (fst (step (unplugged 3) (midway 3)), []).
Proof.
  pose proof (link_failure_ends_run (unplugged 3) (midway 3)) as (_ & _ & _ & H & _).
  pose proof (H 3%N [x01; x02] 100%float (SerialException "device disconnected")
                eq_refl eq_refl eq_refl eq_refl) as E.
  split.
  - exact E.
  - rewrite E.
    exact (proj1 (proj2 (proj2 (proj2 (proj2
             (link_failure_ends_run (unplugged 3)
                (goto (midway 3) Returned (wire (midway 3)))))))) 7 eq_refl).
Defined.

(** C8 as stated fails: when the read of the waybill raises, the error is
    reported as a waybill error, the frame is dispatched with the
    placeholder, and the thread stays in its loop. *)
Lemma waybill_read_error_contained :
  read_waybill waybill_fails 3 = Raises (SerialException "read failed") /\
  run waybill_fails 4 (start frame3) =
  ({| pc := Polling; tick := 4; wire := id13; port_open := true |},
   [status_updated (PortConnected "/dev/ttyAMA1");
    status_updated (ImageReceived 3);
    status_updated (WaybillError (SerialException "read failed"));
    new_data {| name := []; phone := []; text := [1; 2; 3]%N; waybill := read_failed |};
    status_updated OcrDone]).
Proof.
  split; vm_compute; reflexivity.
Qed.

(** C9. From the start of the thread on, the buffer of a frame in progress
    is never longer than the declared length; a pass that stays in the inner
    loop keeps the declared length and appends what one read returned, at
    most [min(2048, remaining)] bytes; and a step that emits a record starts
    with the buffer exactly as long as the declared length. *)
Theorem buffer_within_target (W : World) :
  (forall stream n, within_target (fst (run W n (start stream)))) /\
  (forall s sz data st sz' data' st',
      pc s = Receiving sz data st ->
      pc (fst (step W s)) = Receiving sz' data' st' ->
      sz' = sz /\
      (exists chunk,
          data' = data ++ chunk /\
          List.length chunk <= N.to_nat (N.min 2048 (sz - N.of_nat (List.length data))))) /\
  (forall s, existsb is_record (snd (step W s)) = true ->
             exists sz data st,
               pc s = Receiving sz data st /\ N.of_nat (List.length data) = sz).
Proof.
  conjuncts.
  - intros stream n. apply run_within_target. exact I.
  - intros s sz data st sz' data' st' Hpc H.
    destruct (step_receiving W s Hpc) as [? ? E|k Hlt ? ? E|? ? ? ? E|? E|? E];
      rewrite E in H; simpl in H; try discriminate.
    + injection H as <- <- <-. split; [reflexivity|].
      eexists. split; [reflexivity|]. rewrite length_firstn. lia.
    + rewrite waybill_of_goto in H. discriminate.
  - intros s H.
    destruct (pc s) as [| |sz data st|] eqn:Hpc.
    + unfold step in H. rewrite Hpc in H. destruct (opens W); discriminate.
    + destruct (step_polling W s Hpc) as [? E|? ? ? E|? ? E|? ? ? ? ? E|? ? ? ? ? ? E|? ? ? ? ? ? E];
        rewrite E in H; discriminate.
    + destruct (step_receiving W s Hpc) as [? ? E|? ? ? ? E|? ? ? ? E|Heq E|? E];
        try (rewrite E in H; discriminate).
      exists sz, data, st. auto.
    + rewrite (step_returned W s Hpc) in H. discriminate.
Qed.

(** A check of C9: the record of the image 01 02 03 is emitted from a buffer
    of three bytes. *)
Lemma buffer_within_target_witness :
  within_target (fst (run bytewise 5 (start frame3))) /\
  exists sz data st,
    pc (complete id13) = Receiving sz data st /\ N.of_nat (List.length data) = sz.
Proof.
  split.
  - exact (proj1 (buffer_within_target bytewise) frame3 5).
  - exact (proj2 (proj2 (buffer_within_target whole)) (complete id13) eq_refl).
Defined.

(** C10. When a pass of the inner loop leaves it for the outer loop with the
    image still incomplete, the deadline has passed, and nothing was read:
    the wire is as it was, identifier included, the only signals are the
    timeout and the count of bytes received, no record among them, and the
    next pass that reads a length takes its four bytes from the head of what
    was left. *)
Theorem short_frame_left_on_wire (W : World) (s s' : State) (out : list Signal)
        (sz : N) (data : list byte) (st : float) :
  pc s = Receiving sz data st ->
  (N.of_nat (List.length data) < sz)%N ->
  step W s = (s', out) ->
  pc s' = Polling ->
  expired st (clock W (tick s)) = true /\
  wire s' = wire s /\
  out = [status_updated ImageTimeout;
         status_updated (ImageIncomplete (List.length data) sz)] /\
  existsb is_record out = false /\
  (forall size_bytes rest,
      wire s = size_bytes ++ rest ->
      List.length size_bytes = 4 ->
      running W (tick s') = true ->
      (exists k, in_waiting W (tick s') = Bytes (S k)) ->
      hands_over (read_size W (tick s')) 4 ->
      step W s' =
      (goto s' (Receiving (from_bytes_little size_bytes) [] (clock W (tick s'))) rest, [])).
Proof.
  intros Hpc Hlt Hstep Hpc'.
  destruct (step_receiving W s Hpc) as [? Hexp E|? ? ? ? E|? ? ? ? E|? E|? E];
    try lia; rewrite E in Hstep; injection Hstep as <- <-; try discriminate.
  conjuncts; try reflexivity.
  - exact Hexp.
  - intros size_bytes rest Hwire Hlen Hrun Hw Hr.
    now apply step_poll_size.
Qed.

Lemma short_frame_left_on_wire_witness :
  (pc (midway 3) = Receiving 3 [x01; x02] 100%float /\
   (N.of_nat (List.length [x01; x02]) < 3)%N /\
   step slow (midway 3) = (polling 4 (x03 :: id13),
                           [status_updated ImageTimeout;
                            status_updated (ImageIncomplete 2 3)]) /\
   pc (polling 4 (x03 :: id13)) = Polling) /\
  expired 100%float (clock slow (tick (midway 3))) = true /\
  wire (polling 4 (x03 :: id13)) = wire (midway 3) /\
  [status_updated ImageTimeout; status_updated (ImageIncomplete 2 3)]
  = [status_updated ImageTimeout;
     status_updated (ImageIncomplete (List.length [x01; x02]) 3)] /\
  existsb is_record [status_updated ImageTimeout; status_updated (ImageIncomplete 2 3)]
  = false /\
  (forall size_bytes rest,
      wire (midway 3) = size_bytes ++ rest ->
      List.length size_bytes = 4 ->
      running slow (tick (polling 4 (x03 :: id13))) = true ->
      (exists k, in_waiting slow (tick (polling 4 (x03 :: id13))) = Bytes (S k)) ->
      hands_over (read_size slow (tick (polling 4 (x03 :: id13)))) 4 ->
      step slow (polling 4 (x03 :: id13)) =
      (goto (polling 4 (x03 :: id13))
            (Receiving (from_bytes_little size_bytes) []
                       (clock slow (tick (polling 4 (x03 :: id13))))) rest, [])).
Proof.
  split.
  - conjuncts; reflexivity.
  - exact (short_frame_left_on_wire slow (midway 3) (polling 4 (x03 :: id13))
             [status_updated ImageTimeout; status_updated (ImageIncomplete 2 3)]
             3%N [x01; x02] 100%float eq_refl eq_refl eq_refl eq_refl).
Defined.

End ReceiverClaims.

(** ** Checks of the sender *)

Section SenderChecks.
Import Codec Sender Spec Examples.

Lemma crops_fit_belt : crops_fit belt.
Proof.
  intros barcodes b Hin Hhd. simpl in Hin.
  destruct Hin as [<-|[<-|[<-|[<-|[<-|[]]]]]]; simpl in Hhd; try discriminate;
    injection Hhd as <-; vm_compute; reflexivity.
Qed.

(** A check of C4 on five snapshots: two frames go out, one for each of the
    two codes of thirteen characters. *)
Lemma sender_transmits_once_witness :
  crops_fit belt /\
  exists st,
    loop init belt = ret st /\
    uart st = flat_map frame_writes (transmitted [] belt) /\
    pre_code st = map payload (transmitted [] belt) /\
    (forall earlier b others,
        transmitted [] (earlier ++ [b :: others]) =
        transmitted [] earlier ++
          (if (List.length (payload b) =? 13)
              && negb (str_in (payload b) (map payload (transmitted [] earlier)))
           then [b] else [])) /\
    NoDup (map payload (transmitted [] belt)) /\
    (forall c,
        In c (map payload (transmitted [] belt)) <->
        (List.length c = 13 /\
         exists barcodes b,
           In barcodes belt /\ hd_error barcodes = Some b /\ payload b = c)).
Proof.
  split.
  - exact crops_fit_belt.
  - exact (sender_transmits_once belt crops_fit_belt).
Defined.

Example transmitted_belt : transmitted [] belt = [parcel; other_parcel].
Proof. reflexivity. Qed.

(** A check of C5: the first parcel seen by a fresh sender. *)
Lemma sender_frame_writes_witness :
  (str_in (payload parcel) (pre_code init) = false /\
   List.length (payload parcel) = 13 /\
   (N.of_nat (List.length (crop parcel)) < 2 ^ 32)%N) /\
  exists size_bytes id,
    capture init [parcel] =
    ret {| pre_code := pre_code init ++ [payload parcel];
           uart := uart init ++ [size_bytes; crop parcel; id];
           led := true |} /\
    List.length size_bytes = 4 /\
    from_bytes_little size_bytes = N.of_nat (List.length (crop parcel)) /\
    (Forall (fun c => (c < 128)%N) (payload parcel) ->
     List.length id = 13 /\ map Byte.to_N id = payload parcel) /\
    (Forall (fun c => (c < 0x110000)%N) (payload parcel) ->
     decode_utf8 id = Some (payload parcel)).
Proof.
  assert (H : (N.of_nat (List.length (crop parcel)) < 2 ^ 32)%N) by reflexivity.
  split.
  - conjuncts; [reflexivity | reflexivity | exact H].
  - exact (sender_frame_writes init parcel [] eq_refl eq_refl H).
Defined.

Example capture_parcel :
  capture init [parcel] =
  ret {| pre_code := [code13];
         uart := [[x03; x00; x00; x00]; img3; id13];
         led := true |}.
Proof. reflexivity. Qed.

Example capture_parcel_again :
  loop init [[parcel]; [parcel]] =
  ret {| pre_code := [code13];
         uart := [[x03; x00; x00; x00]; img3; id13];
         led := false |}.
Proof. reflexivity. Qed.

End SenderChecks.

(** ** The length field and the bytes of a code *)

Section FieldFacts.
Import Codec Sender Spec Examples.
Local Open Scope N_scope.

Lemma byte_of_N_mod (x : N) (a : byte) : x mod 256 = Byte.to_N a -> byte_of_N x = a.
Proof.
  intros H. unfold byte_of_N. rewrite H. now rewrite Byte.of_to_N.
Qed.

Lemma to_N_lt_256 (a : byte) : Byte.to_N a < 256.
Proof. pose proof (Byte.to_N_bounded a). lia. Qed.

Lemma low_byte (a : byte) (r : N) : (Byte.to_N a + 256 * r) mod 256 = Byte.to_N a.
Proof.
  rewrite N.mul_comm, N.Div0.mod_add. apply N.mod_small, to_N_lt_256.
Qed.

Lemma high_bytes (a : byte) (r : N) : (Byte.to_N a + 256 * r) / 256 = r.
Proof.
  rewrite N.mul_comm, N.div_add by discriminate.
  rewrite N.div_small by apply to_N_lt_256. reflexivity.
Qed.

(** X1. Any four bytes read as a length decode to a number below 2^32 whose
    little-endian encoding is these four bytes again: [int.from_bytes] and
    [to_bytes(4, 'little')] are inverse on the length field, and the receiver
    never sees a declared size of 2^32 or more. *)
Theorem size_field_round_trip (bs : list byte) :
  List.length bs = 4%nat ->
  from_bytes_little bs < 2 ^ 32 /\
  to_bytes4_little (from_bytes_little bs) = ret bs.
Proof.
  intros Hlen.
  destruct bs as [|a [|b [|c [|d [|? ?]]]]]; try discriminate. clear Hlen.
  assert (Hlt : from_bytes_little [a; b; c; d] < 2 ^ 32).
  { cbn [from_bytes_little].
    pose proof (to_N_lt_256 a). pose proof (to_N_lt_256 b).
    pose proof (to_N_lt_256 c). pose proof (to_N_lt_256 d).
    change (2 ^ 32) with 4294967296. lia. }
  split; [exact Hlt|].
  rewrite (to_bytes4_little_fits _ Hlt). unfold ret. f_equal.
  unfold little4.
  change (2 ^ 8) with 256. change (2 ^ 16) with (256 * 256).
  change (2 ^ 24) with (256 * 256 * 256).
  rewrite <- !N.Div0.div_div.
  cbn [from_bytes_little].
  rewrite !high_bytes.
  rewrite (byte_of_N_mod _ a (low_byte a _)).
  rewrite (byte_of_N_mod _ b (low_byte b _)).
  rewrite (byte_of_N_mod _ c (low_byte c _)).
  rewrite (byte_of_N_mod _ d (low_byte d _)).
  reflexivity.
Qed.

Lemma size_field_round_trip_witness :
  List.length [xe8; x03; x00; x00] = 4%nat /\
  from_bytes_little [xe8; x03; x00; x00] < 2 ^ 32 /\
  to_bytes4_little (from_bytes_little [xe8; x03; x00; x00]) = ret [xe8; x03; x00; x00].
Proof.
  split; [reflexivity|].
  exact (size_field_round_trip [xe8; x03; x00; x00] eq_refl).
Defined.

Lemma length_utf8_char (c : N) :
  (1 <= List.length (utf8_char c))%nat /\
  (128 <= c -> (2 <= List.length (utf8_char c))%nat).
Proof.
  unfold utf8_char. change 0x80 with 128.
  destruct (N.ltb_spec c 128); [simpl; split; [lia | intros; lia]|].
  destruct (c <? 0x800); [simpl; split; lia|].
  destruct (c <? 0x10000); simpl; split; lia.
Qed.

Lemma length_encode_utf8_ge (s : str) :
  (List.length s <= List.length (encode_utf8 s))%nat.
Proof.
  unfold encode_utf8. induction s as [|c s IH]; simpl.
  - lia.
  - rewrite length_app. pose proof (proj1 (length_utf8_char c)). lia.
Qed.

Lemma length_encode_utf8_gt (s : str) :
  Exists (fun c => 128 <= c) s ->
  (List.length s < List.length (encode_utf8 s))%nat.
Proof.
  unfold encode_utf8. induction 1 as [c s Hc|c s _ IH]; simpl; rewrite length_app.
  - pose proof (proj2 (length_utf8_char c) Hc).
    pose proof (length_encode_utf8_ge s). unfold encode_utf8 in *. lia.
  - pose proof (proj1 (length_utf8_char c)). lia.
Qed.

(** X2. The sender counts the characters of a code, not its bytes: a code of
    13 characters one of which is not ASCII is accepted, and the identifier
    written after the image is then longer than the 13 bytes the receiver
    reads. *)
Theorem non_ascii_code_overlong (st : State) (b : Barcode) (others : list Barcode) :
  str_in (payload b) (pre_code st) = false ->
  List.length (payload b) = 13%nat ->
  N.of_nat (List.length (crop b)) < 2 ^ 32 ->
  Exists (fun c => 128 <= c) (payload b) ->
  exists st' size_bytes id,
    capture st (b :: others) = ret st' /\
    uart st' = uart st ++ [size_bytes; crop b; id] /\
    (13 < List.length id)%nat.
Proof.
  intros Hnew Hlen Hfit Hex.
  eexists. exists (little4 (N.of_nat (List.length (crop b)))), (encode_utf8 (payload b)).
  split; [exact (capture_accepts st b others Hnew Hlen Hfit)|].
  split; [reflexivity|].
  rewrite <- Hlen. now apply length_encode_utf8_gt.
Qed.

End FieldFacts.

(** ** A stream of frames *)

Section StreamFacts.
Import Codec Receiver Spec Examples.

Lemma uart_grows (a : list (list byte)) (x y z : list byte) : a ++ [x; y; z] <> a.
Proof.
  intros H. apply (f_equal (@List.length _)) in H.
  rewrite length_app in H. simpl in H. lia.
Qed.

(** X3. The LED tells whether the pass transmitted: after a pass of the
    capture loop it is on exactly when the pass wrote to the UART, and a pass
    that leaves it off has changed nothing else. *)
Theorem led_tells_transmission (st st' : Sender.State) (barcodes : list Sender.Barcode) :
  Sender.capture st barcodes = ret st' ->
  (Sender.led st' = true <-> Sender.uart st' <> Sender.uart st) /\
  (Sender.led st' = false -> st' = Sender.led_off st).
Proof.
  unfold Sender.capture. intros H.
  destruct barcodes as [|b others].
  - injection H as <-. simpl. split; [split; [discriminate | congruence] | reflexivity].
  - cbv zeta in H.
    destruct (str_in (Sender.payload b) (Sender.pre_code (Sender.led_off st))
              || negb (List.length (Sender.payload b) =? 13)).
    + injection H as <-. simpl. split; [split; [discriminate | congruence] | reflexivity].
    + destruct (to_bytes4_little (N.of_nat (List.length (Sender.crop b)))) as [e|size_bytes];
        [discriminate|].
      simpl in H. injection H as <-. simpl.
      split; [split; [intros _; apply uart_grows | reflexivity] | discriminate].
Qed.

Lemma led_tells_transmission_witness :
  Sender.capture Sender.init [parcel]
  = ret {| Sender.pre_code := [code13];
           Sender.uart := [[x03; x00; x00; x00]; img3; id13];
           Sender.led := true |} /\
  (true = true <-> [[x03; x00; x00; x00]; img3; id13] <> []) /\
  (true = false ->
   {| Sender.pre_code := [code13];
      Sender.uart := [[x03; x00; x00; x00]; img3; id13];
      Sender.led := true |} = Sender.led_off Sender.init).
Proof.
  split; [reflexivity|].
  exact (led_tells_transmission Sender.init
           {| Sender.pre_code := [code13];
              Sender.uart := [[x03; x00; x00; x00]; img3; id13];
              Sender.led := true |} [parcel] eq_refl).
Defined.

Lemma transmitted_first (l : list (list Sender.Barcode)) :
  forall sent b, In b (transmitted sent l) ->
                 List.length (Sender.payload b) = 13 /\
                 exists barcodes, In barcodes l /\ hd_error barcodes = Some b.
Proof.
  induction l as [|barcodes l IH]; intros sent b Hin; simpl in Hin.
  - destruct Hin.
  - destruct barcodes as [|b0 others].
    + destruct (IH sent b Hin) as (H1 & bs & H2 & H3).
      split; [exact H1|]. exists bs. split; [now right | exact H3].
    + destruct ((List.length (Sender.payload b0) =? 13)
                && negb (str_in (Sender.payload b0) sent)) eqn:Q.
      * destruct Hin as [<-|Hin].
        -- apply andb_true_iff in Q. destruct Q as [Q _]. apply Nat.eqb_eq in Q.
           split; [exact Q|]. exists (b0 :: others). split; [now left | reflexivity].
        -- destruct (IH _ b Hin) as (H1 & bs & H2 & H3).
           split; [exact H1|]. exists bs. split; [now right | exact H3].
      * destruct (IH sent b Hin) as (H1 & bs & H2 & H3).
        split; [exact H1|]. exists bs. split; [now right | exact H3].
Qed.

Lemma line_of_frames (l : list Sender.Barcode) :
  concat (flat_map frame_writes l) =
  flat_map (fun b => little4 (N.of_nat (List.length (Sender.crop b)))
                     ++ Sender.crop b ++ encode_utf8 (Sender.payload b)) l.
Proof.
  induction l as [|b l IH]; simpl.
  - reflexivity.
  - rewrite IH. now rewrite <- !app_assoc.
Qed.

(** In a world that serves them one after the other, the frames at the head
    of the wire are received in turn, each in its passes and two more
    steps. *)
Lemma receive_frames (W : World) :
  forall (l : list Sender.Barcode) (passes : list nat) (s : State) (rest : list byte),
    pc s = Polling ->
    List.length passes = List.length l ->
    serves_all W (tick s)
               (combine (map (fun b => List.length (Sender.crop b)) l) passes) ->
    (forall b, In b l ->
               (N.of_nat (List.length (Sender.crop b)) < 2 ^ 32)%N /\
               List.length (encode_utf8 (Sender.payload b)) = 13) ->
    wire s =
    flat_map (fun b => little4 (N.of_nat (List.length (Sender.crop b)))
                       ++ Sender.crop b ++ encode_utf8 (Sender.payload b)) l ++ rest ->
    run W (list_sum (map (fun n => n + 2) passes)) s =
    ({| pc := Polling; tick := tick s + list_sum (map (fun n => n + 2) passes);
        wire := rest; port_open := port_open s |},
     flat_map (fun b => frame_signals W (Sender.crop b) (encode_utf8 (Sender.payload b))) l).
Proof.
  induction l as [|b l IH]; intros passes s rest Hpc Hlen Hs Hok Hwire.
  - destruct passes; [|discriminate].
    simpl in *. destruct s as [c t w o]. simpl in *. subst.
    now rewrite Nat.add_0_r.
  - destruct passes as [|n passes]; [discriminate|].
    cbn [map combine serves_all] in Hs. destruct Hs as [Hs1 Hs2].
    destruct (Hok b (or_introl eq_refl)) as [Hfit Hid].
    cbn [flat_map] in Hwire. rewrite <- !app_assoc in Hwire.
    pose proof (receive_frame W s (little4 (N.of_nat (List.length (Sender.crop b))))
                  (Sender.crop b) (encode_utf8 (Sender.payload b)) _ n Hpc Hwire
                  (conj (length_little4 _) (conj (from_bytes_little4 _ Hfit) Hid)) Hs1)
      as H1.
    replace (tick s + n + 2) with (tick s + (n + 2)) in Hs2 by lia.
    pose proof (IH passes
                   {| pc := Polling; tick := tick s + (n + 2);
                      wire := flat_map
                                (fun b => little4 (N.of_nat (List.length (Sender.crop b)))
                                          ++ Sender.crop b ++ encode_utf8 (Sender.payload b)) l
                              ++ rest;
                      port_open := port_open s |} rest eq_refl
                   ltac:(simpl in Hlen; lia) Hs2
                   (fun b' H' => Hok b' (or_intror H')) eq_refl)
      as H2.
    cbn [map flat_map].
    change (list_sum ((n + 2) :: map (fun n => n + 2) passes))
      with ((n + 2) + list_sum (map (fun n => n + 2) passes)).
    rewrite (run_app W (n + 2) _ _ _ _ _ _ H1 H2). cbn [tick port_open].
    do 2 f_equal. lia.
Qed.

(** X4. What the sender writes over any sequence of snapshots is received
    whole and in order: when the codes transmitted are ASCII and the port
    opens and serves the frames one after the other, each in its own passes
    and against its own deadline, the receiver signals, for each transmitted
    barcode in turn, the length of its crop and its code, hands crop and
    code to the pipeline, whose record it emits with the code as waybill,
    and ends at the top of its loop with the wire empty. *)
Theorem stream_received_in_order (W : World) (snapshots : list (list Sender.Barcode))
        (passes : list nat) :
  crops_fit snapshots ->
  Forall (fun b => Forall (fun c => (c < 128)%N) (Sender.payload b))
         (transmitted [] snapshots) ->
  opens W = None ->
  List.length passes = List.length (transmitted [] snapshots) ->
  serves_all W 1
             (combine (map (fun b => List.length (Sender.crop b))
                           (transmitted [] snapshots)) passes) ->
  exists st final,
    Sender.loop Sender.init snapshots = ret st /\
    run W (S (list_sum (map (fun n => n + 2) passes))) (start (Sender.line st)) =
    (final,
     status_updated (PortConnected (serial_port W))
       :: flat_map
            (fun b =>
               status_updated (ImageReceived (N.of_nat (List.length (Sender.crop b))))
                 :: status_updated (WaybillReceived (Sender.payload b))
                 :: process W (Sender.crop b) (Sender.payload b))
            (transmitted [] snapshots)) /\
    pc final = Polling /\ wire final = [] /\
    (forall b r,
        In b (transmitted [] snapshots) -> pipeline W (Sender.crop b) = ret r ->
        process W (Sender.crop b) (Sender.payload b) =
        [new_data {| name := name r; phone := phone r; text := text r;
                     waybill := Sender.payload b |};
         status_updated OcrDone]).
Proof.
  intros Hfit Hascii Hopen Hlen Hs.
  destruct (loop_transmitted Hfit Sender.init) as (st & Hloop & _ & Huart).
  simpl in Huart.
  assert (Hline : Sender.line st =
                  flat_map (fun b => little4 (N.of_nat (List.length (Sender.crop b)))
                                     ++ Sender.crop b ++ encode_utf8 (Sender.payload b))
                           (transmitted [] snapshots) ++ []).
  { unfold Sender.line. rewrite Huart, line_of_frames. now rewrite app_nil_r. }
  rewrite Forall_forall in Hascii.
  assert (Hok : forall b, In b (transmitted [] snapshots) ->
                          (N.of_nat (List.length (Sender.crop b)) < 2 ^ 32)%N /\
                          List.length (encode_utf8 (Sender.payload b)) = 13).
  { intros b Hb. destruct (transmitted_first snapshots [] b Hb) as (H13 & bs & Hin & Hhd).
    split; [exact (Hfit bs b Hin Hhd)|].
    rewrite length_encode_utf8_ascii; [exact H13 | exact (Hascii b Hb)]. }
  pose proof (receive_frames W (transmitted [] snapshots) passes
                {| pc := Polling; tick := 1; wire := Sender.line st; port_open := true |}
                [] eq_refl Hlen Hs Hok Hline) as Hrun.
  exists st. eexists. split; [exact Hloop|].
  rewrite (run_step W (step_open W _ Hopen) Hrun).
  split; [apply f_equal2; [reflexivity|]
         | split; [reflexivity | split; [reflexivity|]];
           intros b r _ Hr; exact (process_record W _ _ r Hr)].
  simpl. f_equal.
  clear Hrun Hline Huart Hok Hs Hlen.
  induction (transmitted [] snapshots) as [|b l IH]; simpl.
  - reflexivity.
  - rewrite IH by (intros b' H'; apply Hascii; now right).
    f_equal. unfold frame_signals.
    rewrite (decode_encode_ascii _ (Hascii b (or_introl eq_refl))). reflexivity.
Qed.

End StreamFacts.

(** ** What the receiver takes from the wire *)

Section WireFacts.
Import Codec Receiver Spec Examples.

Variable W : World.

(** X6. The waybill is what one call of [read(13)] returns: when that call
    returns [k <= 13] ASCII bytes, the waybill signalled and recorded is the
    string of these [k] bytes, the read is not repeated, and the bytes that
    follow stay on the wire for the next length read. *)
Theorem waybill_is_one_read (s : State) (sz : N) (data : list byte) (st : float)
        (k : nat) (got rest : list byte) :
  pc s = Receiving sz data st ->
  N.of_nat (List.length data) = sz ->
  read_waybill W (tick s) = Bytes k ->
  k <= 13 ->
  wire s = got ++ rest ->
  List.length got = k ->
  Forall (fun x => (Byte.to_N x < 128)%N) got ->
  step W s =
  (goto s Polling rest,
   status_updated (ImageReceived sz)
     :: status_updated (WaybillReceived (map Byte.to_N got))
     :: process W data (map Byte.to_N got)).
Proof.
  intros Hpc Hsz Hr Hk Hwire Hlen Hascii.
  rewrite (step_receive_complete W s Hpc Hsz).
  unfold waybill_of, ser_read. rewrite Hr, Hwire.
  replace (Nat.min 13 k) with k by lia.
  rewrite (firstn_exact _ _ _ Hlen), (skipn_exact _ _ _ Hlen).
  cbn [ret]. unfold ret, decode_ascii.
  rewrite (decode_ascii_from_ok got Hascii). reflexivity.
Qed.

(** X7. A frame that declares an empty image is dispatched at once: the pass
    after the one that read the four zero bytes reads the waybill and hands
    the empty image to the pipeline, without a read of the image and without
    a look at the clock. *)
Theorem empty_image_dispatched (s : State) (size_bytes id rest : list byte) :
  pc s = Polling ->
  running W (tick s) = true ->
  (exists k, in_waiting W (tick s) = Bytes (S k)) ->
  hands_over (read_size W (tick s)) 4 ->
  hands_over (read_waybill W (S (tick s))) 13 ->
  wire s = size_bytes ++ id ++ rest ->
  List.length size_bytes = 4 ->
  from_bytes_little size_bytes = 0%N ->
  List.length id = 13 ->
  run W 2 s =
  ({| pc := Polling; tick := S (S (tick s)); wire := rest; port_open := port_open s |},
   frame_signals W [] id).
Proof.
  intros Hpc Hrun Hw Hsize Hway Hwire Hlen H0 Hid.
  pose proof (step_poll_size W s size_bytes (id ++ rest) Hpc Hrun Hw Hsize Hwire Hlen)
    as H1.
  rewrite H0 in H1.
  assert (H2 : step W (goto s (Receiving 0 [] (clock W (tick s))) (id ++ rest))
               = (goto (goto s (Receiving 0 [] (clock W (tick s))) (id ++ rest))
                       Polling rest,
                  frame_signals W [] id)).
  { apply (step_receive_waybill W _ [] id rest (clock W (tick s)));
      [reflexivity | exact Hway | reflexivity | exact Hid]. }
  rewrite (run_step W H1 (run_step W (n := 0) H2 eq_refl)).
  simpl. now rewrite app_nil_r.
Qed.

End WireFacts.

(** ** Phone and name *)

Section OcrFacts.
Import Codec Receiver Spec Ocr.

Variable P : Python.

Lemma digits_firstn (n : nat) (l : str) :
  digits P n l = true ->
  forallb (isdecimal P) (firstn n l) = true /\ n <= List.length l.
Proof.
  unfold digits. intros H. apply andb_true_iff in H. destruct H as [H1 H2].
  apply Nat.eqb_eq in H1. split; [exact H2|].
  rewrite length_firstn in H1. lia.
Qed.

Lemma match_extension_shape (l : str) (n : nat) :
  match_extension P l = Some n ->
  n <= List.length l /\ extension_shape P (firstn n l).
Proof.
  unfold match_extension.
  destruct (digits P 11 l) eqn:D11; [|discriminate].
  destruct (nth_error l 11) as [c|] eqn:Hn; [|discriminate].
  destruct (c =? 36716)%N eqn:Hc; [|discriminate].
  destruct (digits P 4 (skipn 12 l)) eqn:D4; [|discriminate].
  cbn [andb]. intros H. injection H as <-.
  apply N.eqb_eq in Hc. subst c.
  destruct (digits_firstn 11 l D11) as (F11 & _).
  destruct (digits_firstn 4 (skipn 12 l) D4) as (F4 & L4).
  rewrite length_skipn in L4.
  split; [lia|]. unfold extension_shape.
  split; [rewrite length_firstn; lia|].
  split; [rewrite nth_error_firstn; simpl; exact Hn|].
  split.
  - rewrite firstn_firstn. exact F11.
  - rewrite skipn_firstn_comm. exact F4.
Qed.

Lemma match_mobile_shape (l : str) (n : nat) :
  match_mobile P l = Some n ->
  n <= List.length l /\ mobile_shape P (firstn n l).
Proof.
  unfold match_mobile.
  destruct l as [|c1 [|c2 rest]]; try discriminate.
  destruct (c1 =? 49)%N eqn:H1; [|discriminate].
  destruct (51 <=? c2)%N eqn:H2; [|discriminate].
  destruct (c2 <=? 57)%N eqn:H3; [|discriminate].
  destruct (digits P 9 rest) eqn:D9; [|discriminate].
  cbn [andb]. intros H. injection H as <-.
  apply N.eqb_eq in H1. apply N.leb_le in H2, H3. subst c1.
  destruct (digits_firstn 9 rest D9) as (F9 & L9).
  split; [cbn [List.length]; lia|]. unfold mobile_shape.
  split; [rewrite length_firstn; cbn [List.length]; lia|].
  split; [exists c2; split; [reflexivity | lia]|].
  exact F9.
Qed.

Lemma match_phone_shape (l : str) (n : nat) :
  match_phone P l = Some n ->
  n <= List.length l /\ (extension_shape P (firstn n l) \/ mobile_shape P (firstn n l)).
Proof.
  unfold match_phone.
  destruct (match_extension P l) as [m|] eqn:E.
  - intros H. injection H as <-.
    destruct (match_extension_shape l m E). auto.
  - intros H. destruct (match_mobile_shape l n H). auto.
Qed.

Lemma search_phone_from_spec (l : str) :
  forall pos,
    match search_phone_from P pos l with
    | Some (a, b) =>
        exists i n, a = pos + i /\ b = a + n /\ i <= List.length l /\
                    match_phone P (skipn i l) = Some n /\
                    forall j, j < i -> match_phone P (skipn j l) = None
    | None => forall j, match_phone P (skipn j l) = None
    end.
Proof.
  induction l as [|c l IH]; intros pos; cbn [search_phone_from].
  - destruct (match_phone P []) as [n|] eqn:E.
    + exists 0, n. split; [lia|]. split; [reflexivity|]. split; [simpl; lia|].
      split; [exact E|]. intros j Hj. lia.
    + intros j. now rewrite skipn_nil.
  - destruct (match_phone P (c :: l)) as [n|] eqn:E.
    + exists 0, n. split; [lia|]. split; [reflexivity|]. split; [simpl; lia|].
      split; [exact E|]. intros j Hj. lia.
    + specialize (IH (S pos)).
      destruct (search_phone_from P (S pos) l) as [[a b]|].
      * destruct IH as (i & n & Ha & Hb & Hi & Hm & Hnone).
        exists (S i), n. split; [lia|]. split; [exact Hb|]. split; [simpl; lia|].
        split; [exact Hm|].
        intros [|j] Hj; [exact E | apply Hnone; lia].
      * intros [|j]; [exact E | apply IH].
Qed.

(** X8. The phone number found in a text is the leftmost one: [search]
    returns a position where the pattern matches and before which it matches
    nowhere, and it returns nothing only when the pattern matches at no
    position of the text. *)
Theorem search_phone_leftmost (text : str) :
  match search_phone P text with
  | Some (a, b) =>
      a <= b /\ b <= List.length text /\
      match_phone P (skipn a text) = Some (b - a) /\
      forall j, j < a -> match_phone P (skipn j text) = None
  | None => forall j, match_phone P (skipn j text) = None
  end.
Proof.
  unfold search_phone.
  pose proof (search_phone_from_spec text 0) as H.
  destruct (search_phone_from P 0 text) as [[a b]|]; [|exact H].
  destruct H as (i & n & Ha & Hb & Hi & Hm & Hnone). simpl in Ha. subst a b.
  destruct (match_phone_shape _ _ Hm) as [Hn _]. rewrite length_skipn in Hn.
  replace (i + n - i) with n by lia.
  repeat split; auto; lia.
Qed.

Lemma find_first {A} (f : A -> bool) (l : list A) (x : A) :
  find f l = Some x ->
  exists before after,
    l = before ++ x :: after /\ f x = true /\ forall y, In y before -> f y = false.
Proof.
  induction l as [|a l IH]; simpl; [discriminate|].
  destruct (f a) eqn:Fa.
  - intros H. injection H as <-. exists [], l. repeat split; auto. intros y [].
  - intros H. destruct (IH H) as (before & after & -> & Fx & Hb).
    exists (a :: before), after. repeat split; auto.
    intros y [<-|Hy]; auto.
Qed.

Lemma find_nothing {A} (f : A -> bool) (l : list A) :
  (forall y, In y l -> f y = false) -> find f l = None.
Proof.
  induction l as [|a l IH]; simpl; intros H; [reflexivity|].
  rewrite (H a (or_introl eq_refl)). apply IH. intros y Hy. apply H. now right.
Qed.

(** X9. When the extraction succeeds, the phone of the record is the
    placeholder 未找到电话, or a number with an extension (eleven digits,
    转, four digits), or a mobile number (1, a digit from 3 to 9, nine
    digits), cut out of the text at the leftmost match. *)
Theorem phone_field_shape (results : list str) (r : Result) :
  extract P (inr results) = inr r ->
  match search_phone P (join [10%N] results) with
  | None => phone r = phone_not_found
  | Some (a, b) =>
      phone r = slice (join [10%N] results) a b /\
      (extension_shape P (phone r) \/ mobile_shape P (phone r))
  end.
Proof.
  unfold extract. cbv zeta.
  pose proof (search_phone_leftmost (join [10%N] results)) as Hs.
  destruct (search_phone P (join [10%N] results)) as [[a b]|].
  - destruct (search_chinese (skipn b (join [10%N] results))); [|discriminate].
    intros H. injection H as <-. simpl phone.
    split; [reflexivity|].
    destruct Hs as (_ & _ & Hm & _).
    exact (proj2 (match_phone_shape _ _ Hm)).
  - destruct (search_chinese (join [10%N] results)); [|discriminate].
    intros H. injection H as <-. reflexivity.
Qed.

(** X10. When the extraction succeeds, the name is one Chinese character
    followed by a star, and that character is the first Chinese character
    after the end of the phone number, or of the whole text when no phone
    number was found; the record carries the whole text and the waybill
    placeholder 未提供. *)
Theorem name_follows_phone (results : list str) (r : Result) :
  extract P (inr results) = inr r ->
  text r = join [10%N] results /\
  waybill r = not_provided /\
  exists c before after,
    name r = [c; 42%N] /\
    is_chinese c = true /\
    name_region P (text r) = before ++ c :: after /\
    forall y, In y before -> is_chinese y = false.
Proof.
  unfold extract, name_region. cbv zeta.
  destruct (search_phone P (join [10%N] results)) as [[a b]|] eqn:Hs.
  - destruct (search_chinese (skipn b (join [10%N] results))) as [c|] eqn:Hc;
      [|discriminate].
    intros H. injection H as <-. simpl. rewrite Hs.
    destruct (find_first _ _ _ Hc) as (before & after & E & Fc & Hb).
    repeat split; auto. exists c, before, after. auto.
  - destruct (search_chinese (join [10%N] results)) as [c|] eqn:Hc; [|discriminate].
    intros H. injection H as <-. simpl. rewrite Hs.
    destruct (find_first _ _ _ Hc) as (before & after & E & Fc & Hb).
    repeat split; auto. exists c, before, after. auto.
Qed.

(** X11. When no Chinese character follows the phone number (or occurs in a
    text without a phone number), [perform_ocr] returns the error record:
    the name is OCR错误 with the message of the unbound [name], the phone is
    OCR错误 and the text is empty, whatever was recognised and even when a
    phone number was found. *)
Theorem no_name_no_record (results : list str) :
  (forall c, In c (name_region P (join [10%N] results)) -> is_chinese c = false) ->
  perform_ocr P (inr results) =
  {| name := ocr_error_prefix ++ describe P NameUnbound; phone := ocr_error;
     text := []; waybill := not_provided |}.
Proof.
  unfold name_region, perform_ocr, extract. cbv zeta. intros H.
  destruct (search_phone P (join [10%N] results)) as [[a b]|];
    unfold search_chinese; rewrite (find_nothing _ _ H); reflexivity.
Qed.

(** X12. A failure of the OCR engine does not lose the frame: when the image
    opens, the frame received over a port that serves it yields the record
    made by [perform_ocr] with the waybill of the frame in it, and when
    reading the text raised, the name of that record is OCR错误 with the
    message, its phone OCR错误 and its text empty. *)
Theorem ocr_failure_keeps_frame
        {A : Type} (open_image : list byte -> raising A)
        (readtext : A -> raising (list str))
        (W : World) (s : State) (size_bytes img id rest : list byte)
        (image : A) (w : str) (n : nat) :
  pipeline W img = pipeline_of P open_image readtext img ->
  open_image img = ret image ->
  decode_ascii id = ret w ->
  pc s = Polling ->
  wire s = size_bytes ++ img ++ id ++ rest ->
  is_frame size_bytes img id ->
  serves W (tick s) (List.length img) n ->
  exists final,
    run W (n + 2) s =
    (final,
     [status_updated (ImageReceived (N.of_nat (List.length img)));
      status_updated (WaybillReceived w);
      new_data {| name := name (perform_ocr P (readtext image));
                  phone := phone (perform_ocr P (readtext image));
                  text := text (perform_ocr P (readtext image));
                  waybill := w |};
      status_updated OcrDone]) /\
    pc final = Polling /\ wire final = rest /\
    (forall e, readtext image = raise e ->
               name (perform_ocr P (readtext image))
               = ocr_error_prefix ++ describe P (ReaderFailed e) /\
               phone (perform_ocr P (readtext image)) = ocr_error /\
               text (perform_ocr P (readtext image)) = []).
Proof.
  intros Hpipe Hopen Hdec Hpc Hwire Hframe Hs.
  pose proof (receive_frame W s size_bytes img id rest n Hpc Hwire Hframe Hs) as Hrun.
  rewrite Hrun.
  exists {| pc := Polling; tick := tick s + (n + 2); wire := rest;
            port_open := port_open s |}.
  split; [|split; [reflexivity | split; [reflexivity|]]].
  - f_equal.
    apply (frame_signals_record W img id w _ Hdec).
    rewrite Hpipe. unfold pipeline_of. rewrite Hopen. reflexivity.
  - intros e He. rewrite He. repeat split.
Qed.

End OcrFacts.

(** ** The list, the table and the search *)

Section WindowFacts.
Import Codec Receiver Spec Window.

Variable P : Ocr.Python.

Lemma row_eqb_eq (a b : Row) : row_eqb a b = true <-> a = b.
Proof.
  destruct a as [[n1 p1] w1], b as [[n2 p2] w2]. unfold row_eqb.
  rewrite !andb_true_iff, !str_eqb_eq. split.
  - intros [[-> ->] ->]. reflexivity.
  - intros H. injection H as -> -> ->. auto.
Qed.

Lemma row_shown (row : Row) (rows : list Row) :
  existsb (fun r => row_eqb r row) rows = true <-> In row rows.
Proof.
  rewrite existsb_exists. split.
  - intros (r & Hr & E). apply row_eqb_eq in E. now subst.
  - intros H. exists row. split; [exact H | now apply row_eqb_eq].
Qed.

Lemma row_of_inj (a b : Entry) : row_of a = row_of b -> a = b.
Proof.
  destruct a, b. unfold row_of. simpl. intros H. injection H as -> -> ->. reflexivity.
Qed.

Lemma add_record (g : State) (r : Result) :
  add_new_data g (to_dict r) =
  if existsb (fun row => row_eqb row (row_of (entry_of r))) (table g)
  then set_label g AlreadyThere
  else
    {| data := data g ++ [entry_of r];
       table := table g ++ [row_of (entry_of r)];
       status_label := Added (name r) (phone r) (waybill r);
       search_input := search_input g;
       data_file := Dumped (data g ++ [entry_of r]) |}.
Proof. reflexivity. Qed.

Lemma handle_worker_in_step (g : State) (sig : Signal) :
  in_step g -> in_step (handle P g (FromWorker sig)).
Proof.
  intros (Ht & Hn & Hl). destruct sig as [s|r]; simpl handle.
  - unfold update_status, set_label, in_step, load_data in *. simpl. auto.
  - rewrite add_record.
    destruct (existsb (fun row => row_eqb row (row_of (entry_of r))) (table g)) eqn:E.
    + unfold set_label, in_step, load_data in *. simpl. auto.
    + unfold in_step, load_data. simpl. repeat split.
      * rewrite Ht, map_app. reflexivity.
      * apply NoDup_app; [exact Hn | repeat constructor; intros [] |].
        intros x Hx [<-|[]].
        assert (In (row_of (entry_of r)) (table g))
          by (rewrite Ht; now apply in_map).
        apply row_shown in H. congruence.
Qed.

Lemma handle_worker_origin (g : State) (sig : Signal) (item : Entry) :
  In item (data (handle P g (FromWorker sig))) ->
  In item (data g) \/ exists r, sig = new_data r /\ item = entry_of r.
Proof.
  destruct sig as [s|r]; simpl handle.
  - auto.
  - rewrite add_record.
    destruct (existsb (fun row => row_eqb row (row_of (entry_of r))) (table g)); simpl.
    + auto.
    + rewrite in_app_iff. intros [H|[<-|[]]]; [auto|].
      right. exists r. auto.
Qed.

(** X13. While the window only receives the signals of the thread, its table
    shows exactly the entries of its list, in order, the list holds no entry
    twice, what the file holds reloads to the list, and every entry comes
    from a record that was received. *)
Theorem window_keeps_step (sigs : list Signal) :
  table (handle_all P init (map FromWorker sigs))
  = map row_of (data (handle_all P init (map FromWorker sigs))) /\
  NoDup (data (handle_all P init (map FromWorker sigs))) /\
  load_data (handle_all P init (map FromWorker sigs))
  = data (handle_all P init (map FromWorker sigs)) /\
  (forall item,
      In item (data (handle_all P init (map FromWorker sigs))) ->
      exists r, In (new_data r) sigs /\ item = entry_of r).
Proof.
  assert (G : forall sigs g,
             in_step g ->
             in_step (handle_all P g (map FromWorker sigs)) /\
             forall item,
               In item (data (handle_all P g (map FromWorker sigs))) ->
               In item (data g) \/ exists r, In (new_data r) sigs /\ item = entry_of r).
  { clear sigs. induction sigs as [|sig sigs IH]; intros g Hg.
    - simpl. auto.
    - unfold handle_all in *. simpl.
      destruct (IH _ (handle_worker_in_step g sig Hg)) as [H1 H2].
      split; [exact H1|].
      intros item Hitem. destruct (H2 item Hitem) as [H|(r & Hr & E)].
      + destruct (handle_worker_origin g sig item H) as [H'|(r & -> & E)]; [auto|].
        right. exists r. auto.
      + right. exists r. auto. }
  destruct (G sigs init) as [(H1 & H2 & H3) H4].
  - unfold in_step, init, load_data_to_table, load_data. simpl.
    repeat split. constructor.
  - repeat split; auto.
    intros item Hitem. destruct (H4 item Hitem) as [[]|H]. exact H.
Qed.

(** X14. Delivering the same record twice in a row adds it at most once: the
    second delivery changes nothing but the status label, which then reads
    已存在相同记录. *)
Theorem add_new_data_idempotent (g : State) (result : dict) :
  add_new_data (add_new_data g result) result
  = set_label (add_new_data g result) AlreadyThere.
Proof.
  unfold add_new_data. cbv zeta.
  set (n := get result key_name unknown_name).
  set (p := get result key_phone unknown_phone).
  set (w := get result key_waybill unknown_waybill).
  destruct (existsb (fun row => row_eqb row (n, p, w)) (table g)) eqn:E.
  - cbn [table set_label]. rewrite E. reflexivity.
  - cbn [table]. rewrite existsb_app. cbn [existsb].
    rewrite (proj2 (row_eqb_eq (n, p, w) (n, p, w)) eq_refl).
    rewrite orb_true_r. reflexivity.
Qed.

Lemma starts_with_spec (a b : str) :
  starts_with a b = true <-> exists post, b = a ++ post.
Proof.
  revert b. induction a as [|x a IH]; intros b; simpl.
  - split; [intros _; now exists b | reflexivity].
  - destruct b as [|y b].
    + split; [discriminate | intros (post & H); discriminate].
    + rewrite andb_true_iff, N.eqb_eq, IH. split.
      * intros [-> (post & ->)]. now exists post.
      * intros (post & H). injection H as -> ->. split; [reflexivity | now exists post].
Qed.

Lemma contains_spec (a b : str) : contains a b = true <-> occurs_in a b.
Proof.
  unfold occurs_in. induction b as [|y b IH]; simpl.
  - rewrite orb_false_r, starts_with_spec. split.
    + intros (post & H). now exists [], post.
    + intros (pre & post & H). destruct pre; simpl in H.
      * now exists post.
      * discriminate.
  - rewrite orb_true_iff, starts_with_spec, IH. split.
    + intros [(post & H)|(pre & post & H)].
      * exists [], post. exact H.
      * exists (y :: pre), post. simpl. now rewrite H.
    + intros ([|z pre] & post & H); simpl in H.
      * left. now exists post.
      * injection H as -> ->. right. now exists pre, post.
Qed.

Lemma search_data_keeps_list (g : State) : data (search_data P g) = data g.
Proof.
  unfold search_data. cbv zeta.
  destruct (Ocr.lower P (Ocr.strip P (search_input g))); reflexivity.
Qed.

(** X15. A search with a text that is not blank leaves the list and the file
    as they are and shows exactly the entries in which the stripped, lowered
    text occurs in the lowered name, phone or waybill; the status label
    counts them, or reads 未找到匹配记录 when there is none. *)
Theorem search_shows_matches (g : State) :
  Ocr.lower P (Ocr.strip P (search_input g)) <> [] ->
  data (search_data P g) = data g /\
  data_file (search_data P g) = data_file g /\
  (forall row,
      In row (table (search_data P g)) <->
      exists item,
        In item (data g) /\ row = row_of item /\
        (occurs_in (Ocr.lower P (Ocr.strip P (search_input g)))
                   (Ocr.lower P (entry_name item)) \/
         occurs_in (Ocr.lower P (Ocr.strip P (search_input g)))
                   (Ocr.lower P (entry_phone item)) \/
         occurs_in (Ocr.lower P (Ocr.strip P (search_input g)))
                   (Ocr.lower P (entry_waybill item)))) /\
  status_label (search_data P g) =
  match table (search_data P g) with
  | [] => NotFound
  | _ :: _ => Found (List.length (table (search_data P g)))
  end.
Proof.
  intros Hne. unfold search_data. cbv zeta.
  destruct (Ocr.lower P (Ocr.strip P (search_input g))) as [|c text] eqn:E;
    [congruence|].
  simpl. repeat split.
  - intros Hrow. apply in_map_iff in Hrow. destruct Hrow as (item & <- & Hin).
    apply filter_In in Hin. destruct Hin as [Hin Hm].
    exists item. split; [exact Hin|]. split; [reflexivity|].
    unfold matches in Hm. rewrite !orb_true_iff, !contains_spec in Hm. tauto.
  - intros (item & Hin & -> & Hm). apply in_map. apply filter_In.
    split; [exact Hin|].
    unfold matches. rewrite !orb_true_iff, !contains_spec. tauto.
  - destruct (filter (matches P (c :: text)) (data g)); simpl;
      [reflexivity | now rewrite length_map].
Qed.

(** X16. The check for an existing record looks at the rows shown, not at
    the list: once a search has filtered an entry out of the table, the
    record of that entry is added to the list and to the file a second
    time. *)
Theorem duplicate_after_filter (g : State) (r : Result) :
  In (entry_of r) (data g) ->
  Ocr.lower P (Ocr.strip P (search_input g)) <> [] ->
  matches P (Ocr.lower P (Ocr.strip P (search_input g))) (entry_of r) = false ->
  data (add_new_data (search_data P g) (to_dict r)) = data g ++ [entry_of r] /\
  data_file (add_new_data (search_data P g) (to_dict r))
  = Dumped (data g ++ [entry_of r]) /\
  ~ NoDup (data (add_new_data (search_data P g) (to_dict r))).
Proof.
  intros Hin Hne Hm.
  assert (Hrow : existsb (fun row => row_eqb row (row_of (entry_of r)))
                         (table (search_data P g)) = false).
  { apply not_true_is_false. intros H. apply row_shown in H.
    unfold search_data in H. cbv zeta in H.
    destruct (Ocr.lower P (Ocr.strip P (search_input g))) as [|c text]; [congruence|].
    simpl in H. apply in_map_iff in H. destruct H as (item & E & Hf).
    apply row_of_inj in E. subst item.
    apply filter_In in Hf. destruct Hf as [_ Hf]. congruence. }
  rewrite add_record, Hrow. simpl. rewrite search_data_keeps_list.
  repeat split.
  intros Hnd. apply NoDup_remove_2 with (l' := []) in Hnd.
  apply Hnd. now rewrite app_nil_r.
Qed.

Lemma get_missing (d : dict) (key default : str) :
  (forall k v, In (k, v) d -> k <> key) -> get d key default = default.
Proof.
  induction d as [|[k v] d IH]; simpl; intros H; [reflexivity|].
  destruct (str_eqb k key) eqn:E.
  - apply str_eqb_eq in E. exfalso. exact (H k v (or_introl eq_refl) E).
  - apply IH. intros k' v' Hin. apply (H k' v'). now right.
Qed.

(** X17. A dictionary without the keys name, phone and waybill is stored
    under the three defaults 未知姓名, 未知电话 and 未知运单号, unless a row
    with these three texts is already shown. *)
Theorem missing_keys_default (g : State) (result : dict) :
  (forall k v, In (k, v) result ->
               k <> key_name /\ k <> key_phone /\ k <> key_waybill) ->
  existsb (fun row => row_eqb row (unknown_name, unknown_phone, unknown_waybill))
          (table g) = false ->
  data (add_new_data g result) =
  data g ++ [{| entry_name := unknown_name; entry_phone := unknown_phone;
                entry_waybill := unknown_waybill |}] /\
  table (add_new_data g result) =
  table g ++ [(unknown_name, unknown_phone, unknown_waybill)].
Proof.
  intros Hk Hrow. unfold add_new_data. cbv zeta.
  rewrite !get_missing by (intros k v Hin; destruct (Hk k v Hin) as (? & ? & ?); auto).
  rewrite Hrow. split; reflexivity.
Qed.

Lemma search_blank (g : State) :
  Ocr.lower P (Ocr.strip P (search_input g)) = [] ->
  search_data P g = load_data_to_table g (data g).
Proof.
  intros H. unfold search_data. cbv zeta. now rewrite H.
Qed.

(** X18. Clearing the search box brings the whole list back: after a search
    on any text, a search on a blank text shows every entry of the list
    again and the label counts them. *)
Theorem blank_search_shows_all (g : State) (input blank : str) :
  Ocr.lower P (Ocr.strip P blank) = [] ->
  table (search_data P (handle P (search_data P (handle P g (Typed input))) (Typed blank)))
  = map row_of (data g) /\
  status_label
    (search_data P (handle P (search_data P (handle P g (Typed input))) (Typed blank)))
  = Total (List.length (data g)).
Proof.
  intros Hb.
  rewrite (search_blank (handle P (search_data P (handle P g (Typed input))) (Typed blank)) Hb).
  cbn [handle load_data_to_table table status_label data].
  rewrite search_data_keeps_list. split; reflexivity.
Qed.

(** X19. A frame received shows up as one row: delivered to a fresh window,
    the signals of a frame whose image the pipeline turns into a record add
    one entry with the name and phone of that record and the waybill read
    from the wire, write it to the file, and leave OCR识别完成 on the status
    label. *)
Theorem frame_becomes_row (W : World) (img id : list byte) (w : str) (r : Result) :
  decode_ascii id = ret w ->
  pipeline W img = ret r ->
  handle_all P init (map FromWorker (frame_signals W img id)) =
  {| data := [{| entry_name := name r; entry_phone := phone r; entry_waybill := w |}];
     table := [(name r, phone r, w)];
     status_label := FromThread OcrDone;
     search_input := [];
     data_file := Dumped [{| entry_name := name r; entry_phone := phone r;
                             entry_waybill := w |}] |}.
Proof.
  intros Hdec Hpipe. unfold frame_signals, process, ret in *.
  rewrite Hdec, Hpipe. reflexivity.
Qed.

End WindowFacts.

(** ** Checks on concrete data *)

Section Checks.
Import Codec Receiver Spec Examples Cases.

Lemma serves_engine_down : serves engine_down 1 (List.length img3) 1.
Proof.
  constructor.
  - reflexivity.
  - now exists 0.
  - exists 4096. split; [reflexivity | lia].
  - intros i Hi. assert (i = 0) by lia. subst i.
    split; [cbn [offered_in]; simpl; lia|]. split; [now exists 4096 | reflexivity].
  - vm_compute. lia.
  - exists 4096. split; [reflexivity | lia].
Qed.

Lemma non_ascii_code_overlong_witness :
  (str_in (Sender.payload accent_parcel) (Sender.pre_code Sender.init) = false /\
   List.length (Sender.payload accent_parcel) = 13 /\
   (N.of_nat (List.length (Sender.crop accent_parcel)) < 2 ^ 32)%N /\
   Exists (fun c => (128 <= c)%N) (Sender.payload accent_parcel)) /\
  exists st' size_bytes id,
    Sender.capture Sender.init [accent_parcel] = ret st' /\
    Sender.uart st' = Sender.uart Sender.init ++ [size_bytes; Sender.crop accent_parcel; id] /\
    13 < List.length id.
Proof.
  assert (H3 : (N.of_nat (List.length (Sender.crop accent_parcel)) < 2 ^ 32)%N)
    by reflexivity.
  assert (H4 : Exists (fun c => (128 <= c)%N) (Sender.payload accent_parcel)).
  { apply Exists_exists. exists 233%N. split; [simpl; tauto | lia]. }
  split.
  - conjuncts; [reflexivity | reflexivity | exact H3 | exact H4].
  - exact (non_ascii_code_overlong Sender.init accent_parcel [] eq_refl eq_refl H3 H4).
Defined.

Lemma stream_received_in_order_witness :
  (crops_fit belt /\
   Forall (fun b => Forall (fun c => (c < 128)%N) (Sender.payload b)) (transmitted [] belt) /\
   opens steady = None /\
   List.length [1; 1] = List.length (transmitted [] belt) /\
   serves_all steady 1
              (combine (map (fun b => List.length (Sender.crop b)) (transmitted [] belt))
                       [1; 1])) /\
  exists st,
    Sender.loop Sender.init belt = ret st /\
    Sender.line st
    = ([x03; x00; x00; x00] ++ img3 ++ id13)
      ++ [x04; x00; x00; x00] ++ [xff; xd8; xff; xd9]
      ++ [x36; x39; x30; x31; x32; x33; x34; x35; x36; x37; x38; x39; x32] /\
    run steady 7 (start (Sender.line st)) =
    (polling 7 [],
     [status_updated (PortConnected "/dev/ttyAMA1");
      status_updated (ImageReceived 3);
      status_updated (WaybillReceived code13);
      new_data {| name := []; phone := []; text := [1; 2; 3]%N; waybill := code13 |};
      status_updated OcrDone;
      status_updated (ImageReceived 4);
      status_updated (WaybillReceived other13);
      new_data {| name := []; phone := []; text := [255; 216; 255; 217]%N;
                  waybill := other13 |};
      status_updated OcrDone]).
Proof.
  assert (H2 : Forall (fun b => Forall (fun c => (c < 128)%N) (Sender.payload b))
                      (transmitted [] belt)).
  { change (transmitted [] belt) with [parcel; other_parcel].
    repeat constructor. }
  assert (H5 : serves_all steady 1
                 (combine (map (fun b => List.length (Sender.crop b)) (transmitted [] belt))
                          [1; 1])).
  { change (serves steady 1 3 1 /\ serves steady 4 4 1 /\ True).
    conjuncts; [apply serves_steady; [lia | reflexivity]
               | apply serves_steady; [lia | reflexivity] | exact I]. }
  split.
  - conjuncts; [exact crops_fit_belt | exact H2 | reflexivity | reflexivity | exact H5].
  - destruct (stream_received_in_order steady belt [1; 1] crops_fit_belt H2 eq_refl
                eq_refl H5) as (st & final & Hloop & Hrun & _).
    exists st. split; [exact Hloop|].
    assert (E : st = {| Sender.pre_code := [code13; other13];
                        Sender.uart := [[x03; x00; x00; x00]; img3; id13;
                                        [x04; x00; x00; x00]; [xff; xd8; xff; xd9];
                                        [x36; x39; x30; x31; x32; x33; x34; x35; x36; x37;
                                         x38; x39; x32]];
                        Sender.led := true |}).
    { vm_compute in Hloop. now injection Hloop as <-. }
    subst st. split; [reflexivity|].
    vm_compute. reflexivity.
Defined.

Lemma waybill_is_one_read_witness :
  (pc (complete id13) = Receiving 3 img3 0%float /\
   N.of_nat (List.length img3) = 3%N /\
   read_waybill (port 5) (tick (complete id13)) = Bytes 5 /\
   5 <= 13 /\
   wire (complete id13) = [x31; x32; x33; x34; x35] ++ [x36; x37; x38; x39; x30; x31; x32; x33] /\
   List.length [x31; x32; x33; x34; x35] = 5 /\
   Forall (fun x => (Byte.to_N x < 128)%N) [x31; x32; x33; x34; x35]) /\
  step (port 5) (complete id13) =
  (goto (complete id13) Polling [x36; x37; x38; x39; x30; x31; x32; x33],
   status_updated (ImageReceived 3)
     :: status_updated (WaybillReceived (map Byte.to_N [x31; x32; x33; x34; x35]))
     :: process (port 5) img3 (map Byte.to_N [x31; x32; x33; x34; x35])).
Proof.
  assert (H4 : 5 <= 13) by lia.
  assert (H7 : Forall (fun x => (Byte.to_N x < 128)%N) [x31; x32; x33; x34; x35])
    by (repeat constructor).
  split.
  - conjuncts; [reflexivity | reflexivity | reflexivity | exact H4 | reflexivity
                | reflexivity | exact H7].
  - exact (waybill_is_one_read (port 5) (complete id13) 3%N img3 0%float 5
             [x31; x32; x33; x34; x35] [x36; x37; x38; x39; x30; x31; x32; x33]
             eq_refl eq_refl eq_refl H4 eq_refl eq_refl H7).
Defined.

Lemma empty_image_dispatched_witness :
  (pc (polling 1 ([x00; x00; x00; x00] ++ id13 ++ [])) = Polling /\
   running whole 1 = true /\
   (exists k, in_waiting whole 1 = Bytes (S k)) /\
   hands_over (read_size whole 1) 4 /\
   hands_over (read_waybill whole 2) 13 /\
   List.length [x00; x00; x00; x00] = 4 /\
   from_bytes_little [x00; x00; x00; x00] = 0%N /\
   List.length id13 = 13) /\
  run whole 2 (polling 1 ([x00; x00; x00; x00] ++ id13 ++ [])) =
  ({| pc := Polling; tick := 3; wire := []; port_open := true |},
   frame_signals whole [] id13).
Proof.
  assert (H3 : exists k, in_waiting whole 1 = Bytes (S k)) by (now exists 0).
  assert (H4 : hands_over (read_size whole 1) 4)
    by (exists 4096; split; [reflexivity | lia]).
  assert (H5 : hands_over (read_waybill whole 2) 13)
    by (exists 4096; split; [reflexivity | lia]).
  split.
  - conjuncts; [reflexivity | reflexivity | exact H3 | exact H4 | exact H5
                | reflexivity | reflexivity | reflexivity].
  - exact (empty_image_dispatched whole (polling 1 ([x00; x00; x00; x00] ++ id13 ++ []))
             [x00; x00; x00; x00] id13 [] eq_refl eq_refl H3 H4 H5
             eq_refl eq_refl eq_refl eq_refl).
Defined.

Lemma phone_field_shape_witness :
  Ocr.extract ascii_python (inr [extension_line])
  = inr (Ocr.perform_ocr ascii_python (inr [extension_line])) /\
  match Ocr.search_phone ascii_python (Ocr.join [10%N] [extension_line]) with
  | None => phone (Ocr.perform_ocr ascii_python (inr [extension_line])) = Ocr.phone_not_found
  | Some (a, b) =>
      phone (Ocr.perform_ocr ascii_python (inr [extension_line]))
      = Ocr.slice (Ocr.join [10%N] [extension_line]) a b /\
      (Ocr.extension_shape ascii_python
         (phone (Ocr.perform_ocr ascii_python (inr [extension_line]))) \/
       Ocr.mobile_shape ascii_python
         (phone (Ocr.perform_ocr ascii_python (inr [extension_line]))))
  end.
Proof.
  split; [reflexivity|].
  exact (phone_field_shape ascii_python [extension_line]
           (Ocr.perform_ocr ascii_python (inr [extension_line])) eq_refl).
Defined.

Lemma name_follows_phone_witness :
  Ocr.extract ascii_python (inr label_phone_first)
  = inr (Ocr.perform_ocr ascii_python (inr label_phone_first)) /\
  text (Ocr.perform_ocr ascii_python (inr label_phone_first))
  = Ocr.join [10%N] label_phone_first /\
  waybill (Ocr.perform_ocr ascii_python (inr label_phone_first)) = Ocr.not_provided /\
  exists c before after,
    name (Ocr.perform_ocr ascii_python (inr label_phone_first)) = [c; 42%N] /\
    Ocr.is_chinese c = true /\
    Ocr.name_region ascii_python (text (Ocr.perform_ocr ascii_python (inr label_phone_first)))
    = before ++ c :: after /\
    forall y, In y before -> Ocr.is_chinese y = false.
Proof.
  split; [reflexivity|].
  exact (name_follows_phone ascii_python label_phone_first
           (Ocr.perform_ocr ascii_python (inr label_phone_first)) eq_refl).
Defined.

Lemma no_name_no_record_witness :
  (forall c, In c (Ocr.name_region ascii_python (Ocr.join [10%N] label_name_first)) ->
             Ocr.is_chinese c = false) /\
  Ocr.perform_ocr ascii_python (inr label_name_first) =
  {| name := Ocr.ocr_error_prefix ++ Ocr.describe ascii_python Ocr.NameUnbound;
     phone := Ocr.ocr_error; text := []; waybill := Ocr.not_provided |}.
Proof.
  assert (H : forall c,
             In c (Ocr.name_region ascii_python (Ocr.join [10%N] label_name_first)) ->
             Ocr.is_chinese c = false)
    by (intros c Hc; vm_compute in Hc; destruct Hc).
  split; [exact H|].
  exact (no_name_no_record ascii_python label_name_first H).
Defined.

Lemma ocr_failure_keeps_frame_witness :
  (pipeline engine_down img3
   = Ocr.pipeline_of ascii_python (fun img => ret img) (fun _ => no_model) img3 /\
   decode_ascii id13 = ret code13 /\
   is_frame [x03; x00; x00; x00] img3 id13 /\
   serves engine_down 1 (List.length img3) 1) /\
  exists final,
    run engine_down (1 + 2) (polling 1 ([x03; x00; x00; x00] ++ img3 ++ id13 ++ [])) =
    (final,
     [status_updated (ImageReceived (N.of_nat (List.length img3)));
      status_updated (WaybillReceived code13);
      new_data {| name := name (Ocr.perform_ocr ascii_python no_model);
                  phone := phone (Ocr.perform_ocr ascii_python no_model);
                  text := text (Ocr.perform_ocr ascii_python no_model);
                  waybill := code13 |};
      status_updated OcrDone]) /\
    pc final = Polling /\ wire final = [] /\
    (forall e, no_model = raise e ->
               name (Ocr.perform_ocr ascii_python no_model)
               = Ocr.ocr_error_prefix ++ Ocr.describe ascii_python (Ocr.ReaderFailed e) /\
               phone (Ocr.perform_ocr ascii_python no_model) = Ocr.ocr_error /\
               text (Ocr.perform_ocr ascii_python no_model) = []).
Proof.
  assert (Hf : is_frame [x03; x00; x00; x00] img3 id13)
    by (unfold is_frame; conjuncts; reflexivity).
  split.
  - conjuncts; [reflexivity | reflexivity | exact Hf | exact serves_engine_down].
  - exact (ocr_failure_keeps_frame ascii_python (fun img => ret img) (fun _ => no_model)
             engine_down (polling 1 ([x03; x00; x00; x00] ++ img3 ++ id13 ++ []))
             [x03; x00; x00; x00] img3 id13 [] img3 code13 1
             eq_refl eq_refl eq_refl eq_refl eq_refl Hf serves_engine_down).
Defined.

Lemma search_shows_matches_witness :
  Ocr.lower ascii_python (Ocr.strip ascii_python (Window.search_input looking_for_li)) <> [] /\
  Window.table (Window.search_data ascii_python looking_for_li) = [Window.row_of li] /\
  Window.status_label (Window.search_data ascii_python looking_for_li) = Window.Found 1 /\
  Window.data (Window.search_data ascii_python looking_for_li) = Window.data looking_for_li.
Proof.
  assert (H : Ocr.lower ascii_python (Ocr.strip ascii_python (Window.search_input looking_for_li))
              <> []) by (vm_compute; discriminate).
  pose proof (search_shows_matches ascii_python looking_for_li H) as (H1 & _ & _ & H4).
  split; [exact H|]. split; [reflexivity|]. split; [exact H4 | exact H1].
Defined.

Lemma duplicate_after_filter_witness :
  (In (Window.entry_of zhang_record) (Window.data looking_for_li) /\
   Ocr.lower ascii_python (Ocr.strip ascii_python (Window.search_input looking_for_li)) <> [] /\
   Window.matches ascii_python
     (Ocr.lower ascii_python (Ocr.strip ascii_python (Window.search_input looking_for_li)))
     (Window.entry_of zhang_record) = false) /\
  Window.data (Window.add_new_data (Window.search_data ascii_python looking_for_li)
                                   (Window.to_dict zhang_record))
  = Window.data looking_for_li ++ [Window.entry_of zhang_record] /\
  Window.data_file (Window.add_new_data (Window.search_data ascii_python looking_for_li)
                                        (Window.to_dict zhang_record))
  = Window.Dumped (Window.data looking_for_li ++ [Window.entry_of zhang_record]) /\
  ~ NoDup (Window.data (Window.add_new_data (Window.search_data ascii_python looking_for_li)
                                            (Window.to_dict zhang_record))).
Proof.
  assert (H1 : In (Window.entry_of zhang_record) (Window.data looking_for_li))
    by (left; reflexivity).
  assert (H2 : Ocr.lower ascii_python
                 (Ocr.strip ascii_python (Window.search_input looking_for_li)) <> [])
    by (vm_compute; discriminate).
  split.
  - conjuncts; [exact H1 | exact H2 | reflexivity].
  - exact (duplicate_after_filter ascii_python looking_for_li zhang_record H1 H2 eq_refl).
Defined.

Lemma missing_keys_default_witness :
  ((forall k v, In (k, v) [(Window.key_text, mobile)] ->
                k <> Window.key_name /\ k <> Window.key_phone /\ k <> Window.key_waybill) /\
   existsb (fun row => Window.row_eqb row
                         (Window.unknown_name, Window.unknown_phone, Window.unknown_waybill))
           (Window.table two_rows) = false) /\
  Window.data (Window.add_new_data two_rows [(Window.key_text, mobile)]) =
  Window.data two_rows
  ++ [{| Window.entry_name := Window.unknown_name;
         Window.entry_phone := Window.unknown_phone;
         Window.entry_waybill := Window.unknown_waybill |}] /\
  Window.table (Window.add_new_data two_rows [(Window.key_text, mobile)]) =
  Window.table two_rows
  ++ [(Window.unknown_name, Window.unknown_phone, Window.unknown_waybill)].
Proof.
  assert (H1 : forall k v, In (k, v) [(Window.key_text, mobile)] ->
                           k <> Window.key_name /\ k <> Window.key_phone
                           /\ k <> Window.key_waybill).
  { intros k v [H|[]]. injection H as <- _. conjuncts; discriminate. }
  split.
  - split; [exact H1 | reflexivity].
  - exact (missing_keys_default two_rows [(Window.key_text, mobile)] H1 eq_refl).
Defined.

Lemma blank_search_shows_all_witness :
  Ocr.lower ascii_python (Ocr.strip ascii_python [32; 32]%N) = [] /\
  Window.table
    (Window.search_data ascii_python
       (Window.handle ascii_python
          (Window.search_data ascii_python
             (Window.handle ascii_python two_rows (Window.Typed [26446%N])))
          (Window.Typed [32; 32]%N)))
  = map Window.row_of (Window.data two_rows) /\
  Window.status_label
    (Window.search_data ascii_python
       (Window.handle ascii_python
          (Window.search_data ascii_python
             (Window.handle ascii_python two_rows (Window.Typed [26446%N])))
          (Window.Typed [32; 32]%N)))
  = Window.Total (List.length (Window.data two_rows)).
Proof.
  split; [reflexivity|].
  exact (blank_search_shows_all ascii_python two_rows [26446%N] [32; 32]%N eq_refl).
Defined.

Lemma frame_becomes_row_witness :
  (decode_ascii id13 = ret code13 /\
   pipeline whole img3
   = ret {| name := []; phone := []; text := [1; 2; 3]%N; waybill := [] |}) /\
  Window.handle_all ascii_python Window.init
                    (map Window.FromWorker (frame_signals whole img3 id13)) =
  {| Window.data := [{| Window.entry_name := []; Window.entry_phone := [];
                        Window.entry_waybill := code13 |}];
     Window.table := [([], [], code13)];
     Window.status_label := Window.FromThread OcrDone;
     Window.search_input := [];
     Window.data_file :=
       Window.Dumped [{| Window.entry_name := []; Window.entry_phone := [];
                         Window.entry_waybill := code13 |}] |}.
Proof.
  split.
  - split; reflexivity.
  - exact (frame_becomes_row ascii_python whole img3 id13 code13
             {| name := []; phone := []; text := [1; 2; 3]%N; waybill := [] |}
             eq_refl eq_refl).
Defined.

End Checks.
